(** * lsh: a minimal interactive command interpreter (src/lsh.c)

    A shallow embedding of [lsh.c] and the verification of its specification.

    The C program talks to its environment through the C library and the
    operating system.  The embedding makes that environment explicit:

    - a [world] holds the unread standard input, the answers the operating
      system will give to the coming calls ([malloc]/[realloc], [chdir],
      [fork], [execvp], [waitpid]), the current [errno] and the trace of the
      observable actions the process has performed so far;
    - a C function [int f(char **args)] becomes [f : argv -> world -> outcome Z]:
      it either returns a value in a new world, or the process ends inside it
      ([exit], a successful [execvp]), or it never comes back ([waitpid] on a
      child that never terminates).

    Counters ([position], [bufsize]) are C [int]s in the source and [Z] here;
    the model is exact as long as they stay below [INT_MAX], that is for lines
    shorter than 2^31 - 1024 characters. *)

From Stdlib Require Import ZArith List String Ascii Bool Arith Lia.
From Equations Require Import Equations.
From Equations.Prop Require Import Logic.
Import ListNotations.

Open Scope string_scope.
Open Scope Z_scope.

(** ** Constants of the source and of the C library *)

Definition LSH_RL_BUFSIZE : Z := 1024.
Definition LSH_TOK_BUFSIZE : Z := 64.

Definition char_space : ascii := " "%char.
Definition char_tab : ascii := "009"%char.
Definition char_cr : ascii := "013"%char.
Definition char_nl : ascii := "010"%char.
Definition char_bell : ascii := "007"%char.
Definition char_nul : ascii := "000"%char.
Definition char_dquote : ascii := "034"%char.

(** [" \t\r\n\a"] *)
Definition LSH_TOK_DELIM : string :=
  String char_space (String char_tab (String char_cr
    (String char_nl (String char_bell EmptyString)))).

Definition EOF : Z := -1.
Definition EXIT_SUCCESS : Z := 0.
Definition EXIT_FAILURE : Z := 1.
Definition WUNTRACED : Z := 2.
Definition ENOENT : Z := 2.
Definition EAGAIN : Z := 11.
Definition EFAULT : Z := 14.

Definition nl : string := String char_nl EmptyString.
Definition dquote : string := String char_dquote EmptyString.

(** The NUL that ends a C string. *)
Definition terminator : string := String char_nul EmptyString.

(** ** The C library functions the source calls, on strings *)

Module Libc.

(** The value of a [char] as an [unsigned char] converted to [int]. *)
Definition code (c : ascii) : Z := Z.of_N (N_of_ascii c).

(** The [char] an [int] is converted to when stored in a [char] cell. *)
Definition to_char (c : Z) : ascii := ascii_of_N (Z.to_N (c mod 256)).

(** The C string held in a piece of memory: the characters before the
    first NUL. *)
Fixpoint c_str (mem : string) : string :=
  match mem with
  | EmptyString => EmptyString
  | String c rest =>
      if Ascii.eqb c char_nul then EmptyString else String c (c_str rest)
  end.

(** [strchr(set, c) != NULL] for a character [c] other than NUL. *)
Fixpoint member (c : ascii) (set : string) : bool :=
  match set with
  | EmptyString => false
  | String d rest => Ascii.eqb c d || member c rest
  end.

(** [s + n] *)
Fixpoint advance (n : nat) (s : string) : string :=
  match n, s with
  | O, _ => s
  | S _, EmptyString => EmptyString
  | S n', String _ rest => advance n' rest
  end.

(** The first [n] characters of [s]: the string at [s] once [s[n]] has been
    overwritten with NUL. *)
Fixpoint cut (n : nat) (s : string) : string :=
  match n, s with
  | O, _ => EmptyString
  | S _, EmptyString => EmptyString
  | S n', String c rest => String c (cut n' rest)
  end.

(** Length of the initial segment of [s] made of characters of [accept]. *)
Fixpoint strspn (s accept : string) : nat :=
  match s with
  | EmptyString => O
  | String c rest => if member c accept then S (strspn rest accept) else O
  end.

(** Length of the initial segment of [s] free of characters of [reject]. *)
Fixpoint strcspn (s reject : string) : nat :=
  match s with
  | EmptyString => O
  | String c rest => if member c reject then O else S (strcspn rest reject)
  end.

(** [strtok(str, delim)] with its hidden save pointer made explicit:
    [str = None] is the call [strtok(NULL, delim)], which resumes at
    [save].  The result is the token ([None] for NULL) and the new save
    pointer. *)
Definition strtok (str : option string) (delim : string) (save : string)
  : option string * string :=
  let s := match str with Some mem => c_str mem | None => save end in
  let s := advance (strspn s delim) s in
  match s with
  | EmptyString => (None, s)
  | String _ _ =>
      let n := strcspn s delim in
      match advance n s with
      | EmptyString => (Some s, EmptyString)
      | String _ after => (Some (cut n s), after)
      end
  end.

(** [strcmp]: the difference of the first two characters that differ. *)
Fixpoint strcmp_chars (a b : string) : Z :=
  match a, b with
  | EmptyString, EmptyString => 0
  | EmptyString, String d _ => - code d
  | String c _, EmptyString => code c
  | String c a', String d b' =>
      if Ascii.eqb c d then strcmp_chars a' b' else code c - code d
  end.

Definition strcmp (a b : string) : Z := strcmp_chars (c_str a) (c_str b).

(** The wait status macros of <sys/wait.h> (glibc, Linux). *)
Definition signed_char (v : Z) : Z :=
  let m := v mod 256 in if m <? 128 then m else m - 256.

Definition WTERMSIG (status : Z) : Z := Z.land status 127.
Definition WEXITSTATUS (status : Z) : Z :=
  Z.shiftr (Z.land status 65280) 8.
Definition WIFEXITED (status : Z) : bool := WTERMSIG status =? 0.
Definition WIFSIGNALED (status : Z) : bool :=
  0 <? Z.shiftr (signed_char (Z.land status 127 + 1)) 1.
Definition WIFSTOPPED (status : Z) : bool := Z.land status 255 =? 127.
Definition W_EXITCODE (ret sig : Z) : Z := Z.lor (Z.shiftl ret 8) sig.
Definition W_STOPCODE (sig : Z) : Z := Z.lor (Z.shiftl sig 8) 127.

End Libc.

(** ** The environment *)

(** An argument vector, [char **]: its cells in order, [None] for a NULL
    cell. *)
Definition argv := list (option string).

(** [args[i]] *)
Definition cell (args : argv) (i : nat) : option string := nth i args None.

(** The strings of a vector up to its first NULL cell, as [execvp] reads
    them. *)
Fixpoint strings_of (args : argv) : list string :=
  match args with
  | Some s :: rest => s :: strings_of rest
  | _ => []
  end.

(** What one call of [waitpid] does: it stores a status and returns the
    child's pid, or it fails, returns -1 and leaves the status alone. *)
Inductive wait_result : Type :=
| Waited (status : Z)
| WaitFailed (err : Z).

(** Observable actions. *)
Inductive event : Type :=
| Printf (text : string)                    (* written to stdout *)
| Eprintf (text : string)                   (* written to stderr *)
| Perror (prefix : string) (err : Z)        (* perror(prefix) with errno = err *)
| Chdir (path : string) (ret : Z)
| Fork (ret : Z)
| Execvp (file : option string) (args : list string) (ret : option Z)
| Waitpid (pid : Z) (options : Z) (r : wait_result).

Record world : Type := mkWorld {
  stdin : string;             (* unread input; its end is end-of-input *)
  allocs : list bool;         (* success of the coming malloc/realloc calls;
                                 once used up, allocation succeeds *)
  chdirs : list Z;            (* kernel results of the coming chdir calls:
                                 0, or minus the error number; once used up,
                                 -ENOENT *)
  forks : list Z;             (* kernel results of the coming fork calls: 0 in
                                 the child, the child's pid in the parent, or
                                 minus the error number; once used up, -EAGAIN *)
  execs : list Z;             (* kernel results of the coming execvp calls: 0
                                 when the image is replaced, or minus the error
                                 number; once used up, -ENOENT *)
  waits : list wait_result;   (* what the coming waitpid calls report; once
                                 used up, waitpid blocks for ever *)
  errno : Z;
  trace : list event          (* actions so far, the latest first *)
}.

Definition set_stdin (s : string) (w : world) : world :=
  mkWorld s (allocs w) (chdirs w) (forks w) (execs w) (waits w) (errno w) (trace w).
Definition set_allocs (l : list bool) (w : world) : world :=
  mkWorld (stdin w) l (chdirs w) (forks w) (execs w) (waits w) (errno w) (trace w).
Definition set_chdirs (l : list Z) (w : world) : world :=
  mkWorld (stdin w) (allocs w) l (forks w) (execs w) (waits w) (errno w) (trace w).
Definition set_forks (l : list Z) (w : world) : world :=
  mkWorld (stdin w) (allocs w) (chdirs w) l (execs w) (waits w) (errno w) (trace w).
Definition set_execs (l : list Z) (w : world) : world :=
  mkWorld (stdin w) (allocs w) (chdirs w) (forks w) l (waits w) (errno w) (trace w).
Definition set_waits (l : list wait_result) (w : world) : world :=
  mkWorld (stdin w) (allocs w) (chdirs w) (forks w) (execs w) l (errno w) (trace w).
Definition set_errno (e : Z) (w : world) : world :=
  mkWorld (stdin w) (allocs w) (chdirs w) (forks w) (execs w) (waits w) e (trace w).
Definition emit (e : event) (w : world) : world :=
  mkWorld (stdin w) (allocs w) (chdirs w) (forks w) (execs w) (waits w) (errno w)
          (e :: trace w).

(** How a call ends. *)
Inductive outcome (A : Type) : Type :=
| Ret (a : A) (w : world)        (* it returns [a] *)
| Exited (code : Z) (w : world)  (* the process called [exit(code)] *)
| Replaced (w : world)           (* [execvp] replaced the process image *)
| Waiting (w : world)            (* blocked in [waitpid] for ever *)
| Undefined (w : world)          (* an uninitialised variable was read *)
| Prompting (w : world).         (* still in the loop when observation stops *)

Arguments Ret {A} a w.
Arguments Exited {A} code w.
Arguments Replaced {A} w.
Arguments Waiting {A} w.
Arguments Undefined {A} w.
Arguments Prompting {A} w.

Definition bind {A B : Type} (m : outcome A) (k : A -> world -> outcome B)
  : outcome B :=
  match m with
  | Ret a w => k a w
  | Exited c w => Exited c w
  | Replaced w => Replaced w
  | Waiting w => Waiting w
  | Undefined w => Undefined w
  | Prompting w => Prompting w
  end.

(** The world an outcome leaves behind. *)
Definition final {A : Type} (m : outcome A) : world :=
  match m with
  | Ret _ w | Exited _ w | Replaced w | Waiting w | Undefined w | Prompting w => w
  end.

(** The same outcome in a world changed by [f]. *)
Definition in_world {A : Type} (f : world -> world) (m : outcome A) : outcome A :=
  match m with
  | Ret a w => Ret a (f w)
  | Exited c w => Exited c (f w)
  | Replaced w => Replaced (f w)
  | Waiting w => Waiting (f w)
  | Undefined w => Undefined (f w)
  | Prompting w => Prompting (f w)
  end.

(** ** Library and system calls on a world *)

(** [malloc]/[realloc]: [true] for a non-NULL result. *)
Definition alloc (w : world) : bool * world :=
  match allocs w with
  | [] => (true, w)
  | ok :: rest => (ok, set_allocs rest w)
  end.

Definition printf (text : string) (w : world) : world := emit (Printf text) w.
Definition eprintf (text : string) (w : world) : world := emit (Eprintf text) w.
Definition perror (prefix : string) (w : world) : world :=
  emit (Perror prefix (errno w)) w.

(** The C library's wrapper around a kernel result [r]: a negative result
    becomes -1 with [errno] set. *)
Definition syscall_ret (r : Z) (w : world) : Z * world :=
  if r <? 0 then (-1, set_errno (- r) w) else (r, w).

Definition next_or (default : Z) (l : list Z) : Z * list Z :=
  match l with
  | [] => (default, [])
  | r :: rest => (r, rest)
  end.

Definition chdir (path : string) (w : world) : Z * world :=
  let (r, rest) := next_or (- ENOENT) (chdirs w) in
  let (ret, w1) := syscall_ret r (set_chdirs rest w) in
  (ret, emit (Chdir path ret) w1).

Definition fork (w : world) : Z * world :=
  let (r, rest) := next_or (- EAGAIN) (forks w) in
  let (ret, w1) := syscall_ret r (set_forks rest w) in
  (ret, emit (Fork ret) w1).

(** [execvp(file, args)]: [inl w] when the image is replaced (the call does
    not return), [inr (ret, w)] when it returns. *)
Definition execvp (file : option string) (args : argv) (w : world)
  : world + Z * world :=
  match file with
  | None =>
      let (ret, w1) := syscall_ret (- EFAULT) w in
      inr (ret, emit (Execvp file (strings_of args) (Some ret)) w1)
  | Some _ =>
      let (r, rest) := next_or (- ENOENT) (execs w) in
      if r <? 0 then
        let (ret, w1) := syscall_ret r (set_execs rest w) in
        inr (ret, emit (Execvp file (strings_of args) (Some ret)) w1)
      else
        inl (emit (Execvp file (strings_of args) None) (set_execs rest w))
  end.

(** [getchar()]: the next character as an [unsigned char], or [EOF]. *)
Definition getchar (w : world) : Z * world :=
  match stdin w with
  | EmptyString => (EOF, w)
  | String ch rest => (Libc.code ch, set_stdin rest w)
  end.

(** One call [waitpid(pid, &status, options)] that meets the report [r]:
    the value returned, the status variable afterwards, the new world. *)
Definition waitpid (pid options : Z) (r : wait_result) (status : option Z)
  (w : world) : Z * option Z * world :=
  match r with
  | Waited s => (pid, Some s, emit (Waitpid pid options r) w)
  | WaitFailed e => (-1, status, emit (Waitpid pid options r) (set_errno e w))
  end.

(** ** The program *)

(** The fatal path of the two allocators' callers:
    [fprintf(stderr, "lsh: allocation error\n"); exit(EXIT_FAILURE);] *)
Definition allocation_error {A : Type} (w : world) : outcome A :=
  Exited EXIT_FAILURE (eprintf ("lsh: allocation error" ++ nl) w).

(** *** Builtins *)

Definition builtin_str : list string := ["cd"; "help"; "exit"].

Definition lsh_num_builtins : nat := List.length builtin_str.

(** The text [lsh: expected argument to "cd"] and a newline. *)
Definition cd_usage : string :=
  "lsh: expected argument to " ++ dquote ++ "cd" ++ dquote ++ nl.

Definition lsh_cd (args : argv) (w : world) : outcome Z :=
  match cell args 1 with
  | None =>
      Ret 1 (eprintf cd_usage w)
  | Some path =>
      let (r, w1) := chdir path w in
      if negb (r =? 0) then Ret 1 (perror "lsh" w1) else Ret 1 w1
  end.

Definition lsh_help (args : argv) (w : world) : outcome Z :=
  let w := printf ("My own LSH." ++ nl) w in
  let w := printf ("Type program names and args, and hit enter." ++ nl) w in
  let w := printf ("The following are built in:" ++ nl) w in
  let w := fold_left
             (fun w i => printf ("  " ++ nth i builtin_str "" ++ nl) w)
             (seq 0 lsh_num_builtins) w in
  let w := printf "Use the man command for info on other programs." w in
  Ret 1 w.

Definition lsh_exit (args : argv) (w : world) : outcome Z := Ret 0 w.

Definition builtin_func : list (argv -> world -> outcome Z) :=
  [lsh_cd; lsh_help; lsh_exit].

(** *** lsh_read_line *)

(** The [while (1)] loop of [lsh_read_line].  [input] is the unread input:
    taking its head is [c = getchar()], its end is [c == EOF].  [buffer]
    holds the [position] characters stored so far, so that
    [buffer[position] = c] appends. *)
Fixpoint read_loop (input : string) (buffer : string) (position bufsize : Z)
  (w : world) : outcome string :=
  match input with
  | EmptyString =>
      Ret (buffer ++ terminator) (set_stdin EmptyString w)
  | String ch rest =>
      let w := set_stdin rest w in
      if Ascii.eqb ch char_nl then
        Ret (buffer ++ terminator) w
      else
        let buffer := buffer ++ String ch EmptyString in
        let position := position + 1 in
        if position >=? bufsize then
          let bufsize := bufsize + LSH_RL_BUFSIZE in
          let (ok, w) := alloc w in
          if negb ok then allocation_error w
          else read_loop rest buffer position bufsize w
        else read_loop rest buffer position bufsize w
  end.

(** The memory returned holds the line and its terminating NUL. *)
Definition lsh_read_line (w : world) : outcome string :=
  let bufsize := LSH_RL_BUFSIZE in
  let position := 0 in
  let (ok, w) := alloc w in
  if negb ok then allocation_error w
  else read_loop (stdin w) EmptyString position bufsize w.

(** *** lsh_split_line *)

(** What is left to scan while a token is in hand. *)
Definition scan_measure (token : option string) (save : string) : nat :=
  match token with
  | None => O
  | Some _ => S (String.length save)
  end.

(** The [while (token != NULL)] loop of [lsh_split_line].  [tokens] holds the
    [position] cells stored so far, so that [tokens[position] = token]
    appends. *)
Equations? split_loop (token : option string) (save : string) (tokens : argv)
  (position bufsize : Z) (w : world) : outcome argv
  by wf (scan_measure token save) lt :=
  split_loop None save tokens position bufsize w :=
    Ret (tokens ++ [None])%list w;
  split_loop (Some t) save tokens position bufsize w
    with inspect (Libc.strtok None LSH_TOK_DELIM save) => {
    | exist _ (token', save') Hnext with position + 1 >=? bufsize => {
      | true with alloc w => {
        | (false, w1) := allocation_error w1;
        | (true, w1) :=
            split_loop token' save' (tokens ++ [Some t])%list (position + 1)
                       (bufsize + LSH_TOK_BUFSIZE) w1 };
      | false :=
          split_loop token' save' (tokens ++ [Some t])%list (position + 1) bufsize w } }.
Proof.
  all: clear split_loop.
  all: assert (Hadv : forall n s,
         (String.length (Libc.advance n s) <= String.length s)%nat)
    by (intros n; induction n as [|n IH]; intros [|c s]; simpl; try lia;
        specialize (IH s); lia).
  all: revert Hnext; unfold Libc.strtok.
  all: pose proof (Hadv (Libc.strspn save LSH_TOK_DELIM) save) as H1.
  all: destruct (Libc.advance (Libc.strspn save LSH_TOK_DELIM) save)
         as [|c s] eqn:E; [intros [= <- <-]; simpl; lia|].
  all: pose proof (Hadv (Libc.strcspn (String c s) LSH_TOK_DELIM) (String c s)) as H2.
  all: destruct (Libc.advance (Libc.strcspn (String c s) LSH_TOK_DELIM) (String c s))
         as [|d after] eqn:E2; intros [= <- <-]; simpl in *; lia.
Qed.

Definition lsh_split_line (line : string) (w : world) : outcome argv :=
  let bufsize := LSH_TOK_BUFSIZE in
  let position := 0 in
  let (ok, w) := alloc w in
  if negb ok then allocation_error w
  else
    let (token, save) := Libc.strtok (Some line) LSH_TOK_DELIM EmptyString in
    split_loop token save [] position bufsize w.

(** *** lsh_launch *)

(** The [do ... while] loop of the parent.  [pending] is what the coming
    [waitpid] calls report; [status] is [None] until a call has stored one. *)
Fixpoint wait_loop (pending : list wait_result) (pid : Z) (status : option Z)
  (w : world) : outcome unit :=
  match pending with
  | [] => Waiting (set_waits [] w)
  | r :: rest =>
      let '(wpid, status, w) := waitpid pid WUNTRACED r status (set_waits rest w) in
      match status with
      | None => Undefined w
      | Some s =>
          if negb (Libc.WIFEXITED s) && negb (Libc.WIFSIGNALED s)
          then wait_loop rest pid status w
          else Ret tt w
      end
  end.

Definition lsh_launch (args : argv) (w : world) : outcome Z :=
  let (pid, w) := fork w in
  if pid =? 0 then
    (* child *)
    match execvp (cell args 0) args w with
    | inl w => Replaced w
    | inr (r, w) =>
        let w := if r =? -1 then perror "lsh" w else w in
        Exited EXIT_FAILURE w
    end
  else if pid <? 0 then
    (* error forking *)
    Ret 1 (perror "lsh" w)
  else
    (* parent *)
    bind (wait_loop (waits w) pid None w) (fun _ w => Ret 1 w).

(** *** lsh_execute, lsh_loop, main *)

Definition lsh_execute (args : argv) (w : world) : outcome Z :=
  match cell args 0 with
  | None => Ret 1 w
  | Some name =>
      match find (fun i => Libc.strcmp name (nth i builtin_str "") =? 0)
                 (seq 0 lsh_num_builtins) with
      | Some i => nth i builtin_func (fun _ w => Undefined w) args w
      | None => lsh_launch args w
      end
  end.

(** The body of the [do ... while (status)] loop, up to the assignment of
    [status].  [free(line)] and [free(args)], which follow it, have no effect
    the model can see. *)
Definition loop_body (w : world) : outcome Z :=
  let w := printf "> " w in
  bind (lsh_read_line w) (fun line w =>
  bind (lsh_split_line line w) (fun args w =>
  lsh_execute args w)).

(** The [do ... while (status)] loop, observed for [cycles] cycles. *)
Fixpoint lsh_loop (cycles : nat) (w : world) : outcome unit :=
  match cycles with
  | O => Prompting w
  | S cycles =>
      bind (loop_body w) (fun status w =>
      if negb (status =? 0) then lsh_loop cycles w else Ret tt w)
  end.

Definition main (cycles : nat) (w : world) : outcome Z :=
  bind (lsh_loop cycles w) (fun _ w => Ret EXIT_SUCCESS w).

(** ** Vocabulary of the statements *)

(** [m] returns [a]. *)
Definition yields {A : Type} (m : outcome A) (a : A) : Prop :=
  exists w, m = Ret a w.

(** No allocation fails in [w]. *)
Definition memory_ok (w : world) : Prop := ~ In false (allocs w).

(** [w'] is [w] with some allocations used up. *)
Definition allocated (w w' : world) : Prop :=
  w' = set_allocs (allocs w') w /\
  exists used, allocs w = (used ++ allocs w')%list.

(** [m] returns a result that satisfies [P], unless an allocation fails in
    [w], in which case the process exits with a failure status. *)
Definition unless_out_of_memory {A : Type} (w : world) (m : outcome A)
  (P : A -> world -> Prop) : Prop :=
  match m with
  | Ret a w' => P a w'
  | Exited c _ => c = EXIT_FAILURE /\ In false (allocs w)
  | _ => False
  end.

(** [f] neither reads the standard input nor depends on what is left of
    it. *)
Definition stdin_blind {A : Type} (f : world -> outcome A) : Prop :=
  forall s w, f (set_stdin s w) = in_world (set_stdin s) (f w).

(** A whitespace character of the interpreter: a delimiter of the
    tokenizer. *)
Definition is_delim (c : ascii) : bool := Libc.member c LSH_TOK_DELIM.

Fixpoint all_chars (p : ascii -> bool) (s : string) : bool :=
  match s with
  | EmptyString => true
  | String c rest => p c && all_chars p rest
  end.

(** A line that is empty or made of whitespace only. *)
Definition blank (line : string) : bool := all_chars is_delim (Libc.c_str line).

Definition not_nul (c : ascii) : bool := negb (Ascii.eqb c char_nul).
Definition not_nl (c : ascii) : bool := negb (Ascii.eqb c char_nl).

(** A character a token can hold: neither a delimiter nor NUL. *)
Definition word_char (c : ascii) : bool := negb (is_delim c) && not_nul c.

(** A well-formed token: not empty, free of delimiters and of NUL. *)
Definition token_ok (t : string) : bool :=
  negb (String.eqb t EmptyString) && all_chars word_char t.

(** The vector that holds the tokens [toks] and the sentinel. *)
Definition vector (toks : list string) : argv := (map Some toks ++ [None])%list.

(** Tokens written on one line, a single space between two of them. *)
Fixpoint join (toks : list string) : string :=
  match toks with
  | [] => EmptyString
  | [t] => t
  | t :: rest => t ++ String char_space (join rest)
  end.

(** The characters of the input before its first newline, and the input
    after that newline. *)
Fixpoint line_of (input : string) : string :=
  match input with
  | EmptyString => EmptyString
  | String c rest =>
      if Ascii.eqb c char_nl then EmptyString else String c (line_of rest)
  end.

Fixpoint after_line (input : string) : string :=
  match input with
  | EmptyString => EmptyString
  | String c rest => if Ascii.eqb c char_nl then rest else after_line rest
  end.

(** The tokenizer as the specification words it: the maximal runs of
    characters other than whitespace, in order.  [word] is the run being
    read. *)
Fixpoint spec_fields (s : string) (word : string) : list string :=
  match s with
  | EmptyString =>
      if String.eqb word EmptyString then [] else [word]
  | String c rest =>
      if is_delim c then
        if String.eqb word EmptyString then spec_fields rest EmptyString
        else word :: spec_fields rest EmptyString
      else spec_fields rest (word ++ String c EmptyString)
  end.

Definition spec_tokens (line : string) : list string :=
  spec_fields (Libc.c_str line) EmptyString.

(** [spec_fields] closes a word: an empty one is dropped. *)
Definition cons_word (word : string) (l : list string) : list string :=
  if String.eqb word EmptyString then l else word :: l.

(** The tokens still to come when [strtok] has just returned [token] and
    left its save pointer at [save]. *)
Definition toks_after (token : option string) (save : string) : list string :=
  match token with
  | None => []
  | Some t => t :: spec_fields save EmptyString
  end.


(** An outcome with the unread input put aside, to compare two runs that
    differ in it only. *)
Definition but_stdin {A : Type} (m : outcome A) : outcome A :=
  in_world (set_stdin EmptyString) m.

(** A report of [waitpid] that says the child has stopped. *)
Definition stopped (r : wait_result) : bool :=
  match r with
  | Waited s => Libc.WIFSTOPPED s
  | WaitFailed _ => false
  end.

(** A status that says the child has exited or was killed by a signal. *)
Definition terminal (s : Z) : bool := Libc.WIFEXITED s || Libc.WIFSIGNALED s.

(** The trace left by [waitpid] calls that met the reports [l], the latest
    first. *)
Definition wait_events (pid : Z) (l : list wait_result) : list event :=
  rev (map (Waitpid pid WUNTRACED) l).

(** ** The two buffers as memory blocks

    [lsh_read_line] and [lsh_split_line] above keep what they have stored
    so far and decide on [position] and [bufsize] when to enlarge.  Here
    the same two functions work on the block of cells the allocator
    returned, so that a store outside the block shows. *)

(** A block of cells; [None] is a cell nothing has been stored in. *)
Definition block (A : Type) : Type := list (option A).

(** [malloc] of [n] cells. *)
Definition malloc_block {A : Type} (n : Z) : block A := repeat None (Z.to_nat n).

(** [realloc(blk, n)]: a block of [n] cells that starts with the cells of
    [blk]. *)
Definition realloc_block {A : Type} (blk : block A) (n : Z) : block A :=
  firstn (Z.to_nat n) (blk ++ repeat None (Z.to_nat n - List.length blk)).

Fixpoint store_at {A : Type} (i : nat) (x : A) (blk : block A) : option (block A) :=
  match blk, i with
  | [], _ => None
  | _ :: rest, O => Some (Some x :: rest)
  | c :: rest, S i' => option_map (cons c) (store_at i' x rest)
  end.

(** [blk[i] = x]; [None] when cell [i] is not in the block. *)
Definition store {A : Type} (blk : block A) (i : Z) (x : A) : option (block A) :=
  if i <? 0 then None else store_at (Z.to_nat i) x blk.


(** The vector a block of pointers holds, up to and with its first NULL
    cell; [None] as for [block_string]. *)
Fixpoint block_vector (blk : block (option string)) : option argv :=
  match blk with
  | Some None :: _ => Some [None]
  | Some (Some t) :: rest => option_map (cons (Some t)) (block_vector rest)
  | _ => None
  end.



(** [lsh_split_line] on a block. *)
Equations? split_loop_block (token : option string) (save : string)
  (tokens : block (option string)) (position bufsize : Z) (w : world)
  : option (outcome (block (option string)))
  by wf (scan_measure token save) lt :=
  split_loop_block None save tokens position bufsize w :=
    option_map (fun tokens => Ret tokens w) (store tokens position None);
  split_loop_block (Some t) save tokens position bufsize w
    with inspect (Libc.strtok None LSH_TOK_DELIM save) => {
    | exist _ (token', save') Hnext with store tokens position (Some t) => {
      | None := None;
      | Some stored with position + 1 >=? bufsize => {
        | true with alloc w => {
          | (false, w1) := Some (allocation_error w1);
          | (true, w1) :=
              split_loop_block token' save'
                (realloc_block stored (bufsize + LSH_TOK_BUFSIZE))
                (position + 1) (bufsize + LSH_TOK_BUFSIZE) w1 };
        | false :=
            split_loop_block token' save' stored (position + 1) bufsize w } } }.
Proof.
  all: clear split_loop_block.
  all: assert (Hadv : forall n s,
         (String.length (Libc.advance n s) <= String.length s)%nat)
    by (intros n; induction n as [|n IH]; intros [|c s]; simpl; try lia;
        specialize (IH s); lia).
  all: revert Hnext; unfold Libc.strtok.
  all: pose proof (Hadv (Libc.strspn save LSH_TOK_DELIM) save) as H1.
  all: destruct (Libc.advance (Libc.strspn save LSH_TOK_DELIM) save)
         as [|c s] eqn:E; [intros [= <- <-]; simpl; lia|].
  all: pose proof (Hadv (Libc.strcspn (String c s) LSH_TOK_DELIM) (String c s)) as H2.
  all: destruct (Libc.advance (Libc.strcspn (String c s) LSH_TOK_DELIM) (String c s))
         as [|d after] eqn:E2; intros [= <- <-]; simpl in *; lia.
Qed.

Definition lsh_split_line_block (line : string) (w : world)
  : option (outcome (block (option string))) :=
  let bufsize := LSH_TOK_BUFSIZE in
  let position := 0 in
  let (ok, w) := alloc w in
  if negb ok then Some (allocation_error w)
  else
    let (token, save) := Libc.strtok (Some line) LSH_TOK_DELIM EmptyString in
    split_loop_block token save (malloc_block bufsize) position bufsize w.

(** Two outcomes of the same kind in the same world, their results related
    by [R]. *)
Definition same_outcome {A B : Type} (R : A -> B -> Prop)
  (m : outcome A) (m' : outcome B) : Prop :=
  match m, m' with
  | Ret a w, Ret b w' => R a b /\ w = w'
  | Exited c w, Exited c' w' => c = c' /\ w = w'
  | Replaced w, Replaced w' => w = w'
  | Waiting w, Waiting w' => w = w'
  | Undefined w, Undefined w' => w = w'
  | Prompting w, Prompting w' => w = w'
  | _, _ => False
  end.

(** A block whose first cells hold [cells], the others nothing. *)
Definition holds {A : Type} (blk : block A) (cells : list A) : Prop :=
  exists spare, blk = (map Some cells ++ repeat None spare)%list.

(** ** More vocabulary *)

(** The characters of [s] that are no delimiters. *)
Fixpoint strip_delims (s : string) : string :=
  match s with
  | EmptyString => EmptyString
  | String c rest =>
      if is_delim c then strip_delims rest else String c (strip_delims rest)
  end.

(** The strings of [toks] one after the other. *)
Definition concat_strings (toks : list string) : string :=
  fold_right append EmptyString toks.



(** A report of a [waitpid] call that failed. *)
Definition failed (r : wait_result) : bool :=
  match r with
  | Waited _ => false
  | WaitFailed _ => true
  end.

(** What [fprintf] writes before the process exits for want of memory. *)
Definition allocation_message : event := Eprintf ("lsh: allocation error" ++ nl).

(** The last actions of a process that [exit] ends: the allocation error
    message, or, in the child of a fork, the failed [execvp] and the report
    of its error. *)
Definition last_actions (t : list event) : Prop :=
  (exists before, t = allocation_message :: before) \/
  (exists e file args before,
      t = Perror "lsh" e :: Execvp file args (Some (-1)) :: Fork 0 :: before).

(** The calls of [fork] in a trace. *)
Definition is_fork (e : event) : bool :=
  match e with
  | Fork _ => true
  | _ => false
  end.

Definition forks_made (t : list event) : nat := List.length (filter is_fork t).

(** [name], as a C string, is an entry of [builtin_str]. *)
Definition is_builtin (name : string) : bool :=
  existsb (String.eqb (Libc.c_str name)) builtin_str.


(** ** Scenarios *)

(** A world with the input [input] in which the operating system has no
    answer in store: memory is at hand, the other calls fail. *)
Definition quiet (input : string) : world := mkWorld input [] [] [] [] [] 0 [].

(** No allocation fails in a world that has none in store. *)
Definition quiet_memory_ok (input : string) : memory_ok (quiet input) :=
  fun H : False => H.

(** The parent of a child (pid 4242) that is stopped twice (SIGSTOP, then
    SIGTSTP) before it exits with code 3. *)
Definition suspended_twice : world :=
  mkWorld "" [] [] [4242] []
    [Waited (Libc.W_STOPCODE 19); Waited (Libc.W_STOPCODE 20);
     Waited (Libc.W_EXITCODE 3 0); Waited 0] 0 [].

(** The parent of a child (pid 300) that exits with code 7. *)
Definition child_fails_with_7 : world :=
  mkWorld "" [] [] [300] [] [Waited (Libc.W_EXITCODE 7 0)] 0 [].

(** The operator types [frobnicate -x], which is no program.  The child of
    the fork sees [execvp] fail with ENOENT; the parent (child pid 900) sees
    the child exit with [EXIT_FAILURE]. *)
Definition no_such_program_child : world :=
  mkWorld ("frobnicate -x" ++ nl ++ "exit" ++ nl) [] [] [0] [- ENOENT] [] 0 [].

Definition no_such_program_parent : world :=
  mkWorld ("frobnicate -x" ++ nl ++ "exit" ++ nl) [] [] [900] []
    [Waited (Libc.W_EXITCODE EXIT_FAILURE 0)] 0 [].

(** A session: a [cd] that fails, a command that is no program, [exit],
    and a line that is never read. *)
Definition session : world :=
  mkWorld ("cd /nowhere" ++ nl ++ "frobnicate" ++ nl ++ "exit" ++ nl ++ "help" ++ nl)
    [] [- ENOENT] [900] [] [Waited (Libc.W_EXITCODE EXIT_FAILURE 0)] 0 [].

(** A blank line (spaces, a tab, a bell), then [exit]. *)
Definition blank_line : string :=
  String char_space (String char_tab (String char_bell (String char_space EmptyString))).

Definition blank_then_exit : world := quiet (blank_line ++ nl ++ "exit" ++ nl).

(** The operator types [ls -l /tmp]; this is the child of the fork, and
    [execvp] finds the program. *)
Definition program_found_child : world :=
  mkWorld ("ls -l /tmp" ++ nl) [] [] [0] [0] [] 0 [].

(** The parent of a child (pid 77) that stops; then [waitpid] fails twice
    with ECHILD (10). *)
Definition wait_fails_after_stop : world :=
  mkWorld "" [] [] [77] []
    [Waited (Libc.W_STOPCODE 19); WaitFailed 10; WaitFailed 10] 0 [].

(** The parent of a child (pid 77); the first [waitpid] fails. *)
Definition wait_fails_at_once : world :=
  mkWorld "" [] [] [77] [] [WaitFailed 10; Waited 0] 0 [].

(** * Verification *)

(** ** The model on concrete inputs *)

Example split_a_b :
  lsh_split_line "a b" (quiet "") = Ret [Some "a"; Some "b"; None] (quiet "").
Proof. reflexivity. Qed.

Example split_padded :
  lsh_split_line "  a   b  " (quiet "") = Ret [Some "a"; Some "b"; None] (quiet "").
Proof. reflexivity. Qed.

(** Quotes are ordinary characters. *)
Example split_quoted :
  lsh_split_line ("echo " ++ dquote ++ "a b" ++ dquote) (quiet "") =
  Ret [Some "echo"; Some (dquote ++ "a"); Some ("b" ++ dquote); None] (quiet "").
Proof. reflexivity. Qed.

(** A form feed is no delimiter: a line that holds one is a command. *)
Example form_feed_is_a_token :
  lsh_split_line (String "012"%char EmptyString) (quiet "") =
  Ret [Some (String "012"%char EmptyString); None] (quiet "").
Proof. reflexivity. Qed.

(** A NUL in the input ends the line for the tokenizer. *)
Example nul_cuts_the_line :
  bind (lsh_read_line (quiet ("ls" ++ terminator ++ " -l" ++ nl)))
       (fun line w => lsh_split_line line w) =
  Ret [Some "ls"; None] (quiet "").
Proof. reflexivity. Qed.

Example read_two_lines :
  lsh_read_line (quiet ("cd /tmp" ++ nl ++ "help")) =
  Ret ("cd /tmp" ++ terminator) (quiet "help").
Proof. reflexivity. Qed.

(** A failing [malloc] ends the process. *)
Example malloc_fails :
  lsh_read_line (mkWorld "ls" [false] [] [] [] [] 0 []) =
  Exited EXIT_FAILURE
    (mkWorld "ls" [] [] [] [] [] 0 [Eprintf ("lsh: allocation error" ++ nl)]).
Proof. reflexivity. Qed.

(** The buffer is enlarged when the 1024th character is stored: there the
    second allocation is made. *)
Example realloc_fails_at_1024 :
  final (lsh_read_line
           (mkWorld (string_of_list_ascii (repeat "a"%char 1023)) [true; false]
                    [] [] [] [] 0 [])) =
  mkWorld "" [false] [] [] [] [] 0 [] /\
  lsh_read_line
    (mkWorld (string_of_list_ascii (repeat "a"%char 1024)) [true; false]
             [] [] [] [] 0 []) =
  Exited EXIT_FAILURE
    (mkWorld "" [] [] [] [] [] 0 [Eprintf ("lsh: allocation error" ++ nl)]).
Proof. split; vm_compute; reflexivity. Qed.

Example help_prints_the_builtins :
  lsh_help [Some "help"; None] (quiet "") =
  Ret 1 (mkWorld "" [] [] [] [] [] 0
           [Printf "Use the man command for info on other programs.";
            Printf ("  exit" ++ nl); Printf ("  help" ++ nl); Printf ("  cd" ++ nl);
            Printf ("The following are built in:" ++ nl);
            Printf ("Type program names and args, and hit enter." ++ nl);
            Printf ("My own LSH." ++ nl)]).
Proof. reflexivity. Qed.

Example session_runs :
  main 3 session =
  Ret EXIT_SUCCESS
    (mkWorld ("help" ++ nl) [] [] [] [] [] ENOENT
       [Printf "> ";
        Waitpid 900 WUNTRACED (Waited (Libc.W_EXITCODE EXIT_FAILURE 0)); Fork 900;
        Printf "> ";
        Perror "lsh" ENOENT; Chdir "/nowhere" (-1);
        Printf "> "]).
Proof. vm_compute. reflexivity. Qed.

Example wait_statuses :
  Libc.WIFEXITED (Libc.W_EXITCODE 1 0) = true /\
  Libc.WIFSIGNALED 9 = true /\ Libc.WIFEXITED 9 = false /\
  Libc.WIFSTOPPED (Libc.W_STOPCODE 19) = true /\
  Libc.WIFEXITED (Libc.W_STOPCODE 19) = false /\
  Libc.WIFSIGNALED (Libc.W_STOPCODE 19) = false.
Proof. repeat split. Qed.

(** ** Wait statuses *)

Section WaitStatus.

Lemma stopped_status_not_terminal (s : Z) :
  Libc.WIFSTOPPED s = true -> terminal s = false.
Proof.
  unfold Libc.WIFSTOPPED, terminal, Libc.WIFEXITED, Libc.WIFSIGNALED,
    Libc.WTERMSIG.
  intros H. apply Z.eqb_eq in H.
  assert (E : Z.land s 127 = 127).
  { change 127 with (Z.land 255 127) at 1.
    rewrite Z.land_assoc, H. reflexivity. }
  rewrite E. reflexivity.
Qed.

Lemma exit_status_is_exited (code : Z) :
  Libc.WIFEXITED (Libc.W_EXITCODE code 0) = true.
Proof.
  unfold Libc.WIFEXITED, Libc.WTERMSIG, Libc.W_EXITCODE.
  rewrite Z.lor_0_r, Z.shiftl_mul_pow2 by lia.
  change 127 with (Z.ones 7). rewrite Z.land_ones by lia.
  apply Z.eqb_eq.
  replace (code * 2 ^ 8) with ((code * 2) * 2 ^ 7) by lia.
  apply Z_mod_mult.
Qed.

Lemma exit_status_terminal (code : Z) :
  terminal (Libc.W_EXITCODE code 0) = true.
Proof. unfold terminal. rewrite exit_status_is_exited. reflexivity. Qed.

Lemma stopped_report (r : wait_result) :
  stopped r = true -> exists s, r = Waited s /\ terminal s = false.
Proof.
  destruct r as [s|e]; simpl; [|discriminate].
  intros H. exists s. split; [reflexivity|].
  now apply stopped_status_not_terminal.
Qed.

End WaitStatus.

(** ** The wait loop of the parent *)

Section WaitLoop.

Variable pid : Z.

Lemma wait_events_cons (r : wait_result) (l : list wait_result) (t : list event) :
  (wait_events pid (r :: l) ++ t = wait_events pid l ++ Waitpid pid WUNTRACED r :: t)%list.
Proof.
  unfold wait_events. simpl. rewrite <- app_assoc. reflexivity.
Qed.

Lemma terminal_ends_loop (s : Z) :
  terminal s = true ->
  negb (Libc.WIFEXITED s) && negb (Libc.WIFSIGNALED s) = false.
Proof.
  unfold terminal.
  destruct (Libc.WIFEXITED s), (Libc.WIFSIGNALED s); simpl; congruence.
Qed.

Lemma not_terminal_continues (s : Z) :
  terminal s = false ->
  negb (Libc.WIFEXITED s) && negb (Libc.WIFSIGNALED s) = true.
Proof.
  unfold terminal.
  destruct (Libc.WIFEXITED s), (Libc.WIFSIGNALED s); simpl; congruence.
Qed.

(** Stop reports are consumed one by one; the first terminal status ends
    the loop. *)
Lemma wait_loop_through_stops (stops : list wait_result) :
  forall (st : option Z) (w : world) (s : Z) (rest : list wait_result),
    forallb stopped stops = true ->
    terminal s = true ->
    wait_loop (stops ++ Waited s :: rest) pid st w =
    Ret tt (mkWorld (stdin w) (allocs w) (chdirs w) (forks w) (execs w) rest
              (errno w)
              (Waitpid pid WUNTRACED (Waited s) :: wait_events pid stops ++ trace w)).
Proof.
  induction stops as [|r stops IH]; intros st w s rest Hstops Hs.
  - simpl. rewrite (terminal_ends_loop s Hs). reflexivity.
  - simpl in Hstops. apply andb_prop in Hstops as [Hr Hstops].
    destruct (stopped_report r Hr) as (s0 & -> & Hs0).
    cbn [app wait_loop waitpid].
    rewrite (not_terminal_continues s0 Hs0).
    rewrite IH by assumption. cbn [emit set_waits stdin allocs chdirs forks execs errno trace].
    rewrite wait_events_cons. reflexivity.
Qed.

(** With stop reports only, the loop never ends. *)
Lemma wait_loop_only_stops (stops : list wait_result) :
  forall (st : option Z) (w : world),
    forallb stopped stops = true ->
    wait_loop stops pid st w =
    Waiting (mkWorld (stdin w) (allocs w) (chdirs w) (forks w) (execs w) []
               (errno w) (wait_events pid stops ++ trace w)).
Proof.
  induction stops as [|r stops IH]; intros st w Hstops.
  - reflexivity.
  - simpl in Hstops. apply andb_prop in Hstops as [Hr Hstops].
    destruct (stopped_report r Hr) as (s0 & -> & Hs0).
    cbn [wait_loop waitpid].
    rewrite (not_terminal_continues s0 Hs0).
    rewrite IH by assumption. cbn [emit set_waits stdin allocs chdirs forks execs errno trace].
    rewrite wait_events_cons. reflexivity.
Qed.

(** The loop ends only on a terminal status, and has then used up the
    reports before it, none of which carried a terminal status. *)
Lemma wait_loop_returns_on_terminal (pending : list wait_result) :
  forall (st : option Z) (w w' : world),
    match st with Some s0 => terminal s0 = false | None => True end ->
    wait_loop pending pid st w = Ret tt w' ->
    exists before s,
      pending = (before ++ Waited s :: waits w')%list /\
      terminal s = true /\
      (forall s', In (Waited s') before -> terminal s' = false).
Proof.
  induction pending as [|r pending IH]; intros st w w' Hst Hrun.
  - discriminate.
  - destruct r as [s|e]; cbn [wait_loop waitpid] in Hrun.
    + destruct (terminal s) eqn:Hs.
      * rewrite (terminal_ends_loop s Hs) in Hrun.
        injection Hrun as <-. exists [], s. simpl.
        repeat split; auto. intros s' [].
      * rewrite (not_terminal_continues s Hs) in Hrun.
        destruct (IH (Some s) _ _ Hs Hrun) as (before & s1 & -> & Hs1 & Hbefore).
        exists (Waited s :: before), s1. simpl. repeat split; auto.
        intros s' [[= <-]|Hin]; auto.
    + destruct st as [s0|]; [|discriminate].
      rewrite (not_terminal_continues s0 Hst) in Hrun.
      destruct (IH (Some s0) _ _ Hst Hrun) as (before & s1 & -> & Hs1 & Hbefore).
      exists (WaitFailed e :: before), s1. simpl. repeat split; auto.
      intros s' [Heq|Hin]; [discriminate|auto].
Qed.

End WaitLoop.

(** ** fork and the launcher *)

Section Launcher.

Lemma fork_gives (w : world) (r : Z) (later : list Z) :
  forks w = r :: later -> 0 <= r ->
  fork w = (r, emit (Fork r) (set_forks later w)).
Proof.
  intros Hf Hr. unfold fork, syscall_ret. rewrite Hf. simpl.
  destruct (r <? 0) eqn:E; [apply Z.ltb_lt in E; lia|reflexivity].
Qed.

Lemma fork_result_range (w : world) : -1 <= fst (fork w).
Proof.
  unfold fork, syscall_ret.
  destruct (next_or (- EAGAIN) (forks w)) as [r rest].
  destruct (r <? 0) eqn:E; simpl; [lia|apply Z.ltb_ge in E; lia].
Qed.

Lemma fork_trace (w : world) :
  trace (snd (fork w)) = Fork (fst (fork w)) :: trace w.
Proof.
  unfold fork, syscall_ret.
  destruct (next_or (- EAGAIN) (forks w)) as [r rest].
  destruct (r <? 0); reflexivity.
Qed.

Lemma lsh_launch_parent (args : argv) (w : world) :
  0 < fst (fork w) ->
  lsh_launch args w =
  bind (wait_loop (waits (snd (fork w))) (fst (fork w)) None (snd (fork w)))
       (fun _ w => Ret 1 w).
Proof.
  intros Hpid. unfold lsh_launch. destruct (fork w) as [p w1]. simpl in *.
  destruct (p =? 0) eqn:E0; [apply Z.eqb_eq in E0; lia|].
  destruct (p <? 0) eqn:E1; [apply Z.ltb_lt in E1; lia|].
  reflexivity.
Qed.

Lemma lsh_launch_fork_error (args : argv) (w : world) :
  fst (fork w) < 0 ->
  lsh_launch args w = Ret 1 (perror "lsh" (snd (fork w))).
Proof.
  intros Hpid. unfold lsh_launch. destruct (fork w) as [p w1]. simpl in *.
  destruct (p =? 0) eqn:E0; [apply Z.eqb_eq in E0; lia|].
  destruct (p <? 0) eqn:E1; [reflexivity|apply Z.ltb_ge in E1; lia].
Qed.

Lemma fork_waits (w : world) : waits (snd (fork w)) = waits w.
Proof.
  unfold fork, syscall_ret.
  destruct (next_or (- EAGAIN) (forks w)) as [r rest].
  destruct (r <? 0); reflexivity.
Qed.

(** In the parent the launcher can only return 1, wait for ever, or read
    the status no [waitpid] call has stored. *)
Lemma lsh_launch_parent_outcomes (args : argv) (w : world) :
  fst (fork w) <> 0 ->
  match lsh_launch args w with
  | Ret v _ => v = 1
  | Waiting _ | Undefined _ => True
  | Exited _ _ | Replaced _ | Prompting _ => False
  end.
Proof.
  intros Hpid.
  destruct (Z.lt_trichotomy (fst (fork w)) 0) as [Hneg|[H0|Hpos]];
    [|contradiction|].
  - rewrite lsh_launch_fork_error by assumption. reflexivity.
  - rewrite lsh_launch_parent by assumption.
    generalize (fst (fork w)) (snd (fork w)) (@None Z).
    intros p w1. generalize (waits w1) at 1. intros pending.
    revert w1. induction pending as [|r pending IH]; intros w1 st.
    + exact I.
    + cbn [wait_loop].
      destruct (waitpid p WUNTRACED r st (set_waits pending w1)) as [[wpid st'] w2].
      destruct st' as [s|]; [|exact I].
      destruct (negb (Libc.WIFEXITED s) && negb (Libc.WIFSIGNALED s)).
      * apply IH.
      * reflexivity.
Qed.

End Launcher.

(** ** C strings and the tokenizer *)

Section Strings.

Lemma append_empty_r (s : string) : s ++ EmptyString = s.
Proof. induction s as [|c s IH]; simpl; congruence. Qed.

Lemma append_assoc (a b c : string) : (a ++ b) ++ c = a ++ (b ++ c).
Proof. induction a as [|x a IH]; simpl; congruence. Qed.

Lemma append_snoc (a : string) (c : ascii) (b : string) :
  (a ++ String c EmptyString) ++ b = a ++ String c b.
Proof. rewrite append_assoc. reflexivity. Qed.

Lemma append_is_empty (a b : string) :
  a ++ b = EmptyString -> a = EmptyString /\ b = EmptyString.
Proof. destruct a; simpl; [auto|discriminate]. Qed.

Lemma all_chars_app (p : ascii -> bool) (a b : string) :
  all_chars p (a ++ b) = all_chars p a && all_chars p b.
Proof.
  induction a as [|c a IH]; simpl; [reflexivity|].
  rewrite IH, andb_assoc. reflexivity.
Qed.

Lemma all_chars_weaken (p q : ascii -> bool) (s : string) :
  (forall c, p c = true -> q c = true) ->
  all_chars p s = true -> all_chars q s = true.
Proof.
  intros Hpq. induction s as [|c s IH]; simpl; [reflexivity|].
  intros H. apply andb_prop in H as [Hc Hs].
  rewrite (Hpq c Hc), (IH Hs). reflexivity.
Qed.

Lemma c_str_no_nul (mem : string) : all_chars not_nul (Libc.c_str mem) = true.
Proof.
  induction mem as [|c mem IH]; simpl; [reflexivity|].
  destruct (Ascii.eqb c char_nul) eqn:E; simpl; [reflexivity|].
  unfold not_nul at 1. rewrite E, IH. reflexivity.
Qed.

Lemma c_str_fixed (s : string) : all_chars not_nul s = true -> Libc.c_str s = s.
Proof.
  induction s as [|c s IH]; simpl; [reflexivity|].
  intros H. apply andb_prop in H as [Hc Hs]. unfold not_nul in Hc.
  destruct (Ascii.eqb c char_nul); [discriminate|].
  rewrite (IH Hs). reflexivity.
Qed.

Lemma c_str_idem (mem : string) : Libc.c_str (Libc.c_str mem) = Libc.c_str mem.
Proof. apply c_str_fixed, c_str_no_nul. Qed.

(** The terminator a buffer ends with closes its C string. *)
Lemma c_str_terminated (s after : string) :
  Libc.c_str (s ++ String char_nul after) = Libc.c_str s.
Proof.
  induction s as [|c s IH]; simpl; [reflexivity|].
  rewrite IH. reflexivity.
Qed.

(** [strcmp] tells whether two C strings are equal. *)
Lemma code_inj (c d : ascii) : Libc.code c = Libc.code d -> c = d.
Proof.
  unfold Libc.code. intros H. apply N2Z.inj in H.
  rewrite <- (ascii_N_embedding c), <- (ascii_N_embedding d), H. reflexivity.
Qed.

Lemma code_nul (c : ascii) : Libc.code c = 0 -> c = char_nul.
Proof. intros H. apply code_inj. exact H. Qed.

Lemma strcmp_chars_eqb (a : string) :
  forall b, all_chars not_nul a = true -> all_chars not_nul b = true ->
            (Libc.strcmp_chars a b =? 0) = String.eqb a b.
Proof.
  induction a as [|c a IH]; intros [|d b] Ha Hb; simpl in *.
  - reflexivity.
  - apply andb_prop in Hb as [Hd _]. apply Z.eqb_neq. intros H.
    assert (d = char_nul) by (apply code_nul; lia). subst d. discriminate.
  - apply andb_prop in Ha as [Hc _]. apply Z.eqb_neq. intros H.
    assert (c = char_nul) by (apply code_nul; lia). subst c. discriminate.
  - apply andb_prop in Ha as [_ Ha]. apply andb_prop in Hb as [_ Hb].
    destruct (Ascii.eqb c d) eqn:E.
    + apply IH; assumption.
    + apply Z.eqb_neq. intros H. apply Ascii.eqb_neq in E. apply E.
      apply code_inj. lia.
Qed.

Lemma strcmp_eqb (a b : string) :
  (Libc.strcmp a b =? 0) = String.eqb (Libc.c_str a) (Libc.c_str b).
Proof. apply strcmp_chars_eqb; apply c_str_no_nul. Qed.

(** The delimiters are the five characters of [LSH_TOK_DELIM]. *)
Lemma is_delim_chars (c : ascii) :
  is_delim c = true <->
  c = char_space \/ c = char_tab \/ c = char_cr \/ c = char_nl \/ c = char_bell.
Proof.
  unfold is_delim, LSH_TOK_DELIM. cbn [Libc.member].
  rewrite !orb_true_iff, !Ascii.eqb_eq. intuition discriminate.
Qed.

(** *** strtok against the specification's tokenizer *)

Lemma strspn_cons (c : ascii) (s : string) :
  Libc.strspn (String c s) LSH_TOK_DELIM = if is_delim c then S (Libc.strspn s LSH_TOK_DELIM) else O.
Proof. reflexivity. Qed.

Lemma strcspn_cons (c : ascii) (s : string) :
  Libc.strcspn (String c s) LSH_TOK_DELIM = if is_delim c then O else S (Libc.strcspn s LSH_TOK_DELIM).
Proof. reflexivity. Qed.

Lemma skip_delims (s : string) :
  spec_fields s EmptyString = spec_fields (Libc.advance (Libc.strspn s LSH_TOK_DELIM) s) EmptyString.
Proof.
  induction s as [|c s IH]; [reflexivity|].
  rewrite strspn_cons.
  destruct (is_delim c) eqn:E.
  - cbn [Libc.advance spec_fields String.eqb]. rewrite E. exact IH.
  - reflexivity.
Qed.

Lemma skip_delims_head (s : string) (c : ascii) (r : string) :
  Libc.advance (Libc.strspn s LSH_TOK_DELIM) s = String c r -> is_delim c = false.
Proof.
  induction s as [|x s IH]; [discriminate|].
  rewrite strspn_cons.
  destruct (is_delim x) eqn:E.
  - cbn [Libc.advance]. exact IH.
  - cbn [Libc.advance]. intros [= <- <-]. exact E.
Qed.

Lemma scan_word (s : string) :
  forall word,
    spec_fields s word =
    match Libc.advance (Libc.strcspn s LSH_TOK_DELIM) s with
    | EmptyString => cons_word (word ++ s) []
    | String _ after =>
        cons_word (word ++ Libc.cut (Libc.strcspn s LSH_TOK_DELIM) s)
                  (spec_fields after EmptyString)
    end.
Proof.
  induction s as [|c s IH]; intros word.
  - simpl. rewrite append_empty_r. reflexivity.
  - rewrite strcspn_cons. cbn [spec_fields].
    destruct (is_delim c) eqn:E.
    + cbn [Libc.advance Libc.cut]. rewrite append_empty_r. reflexivity.
    + cbn [Libc.advance Libc.cut]. rewrite IH.
      destruct (Libc.advance (Libc.strcspn s LSH_TOK_DELIM) s); rewrite append_snoc; reflexivity.
Qed.

Lemma strtok_fields (s : string) :
  spec_fields s EmptyString =
  toks_after (fst (Libc.strtok None LSH_TOK_DELIM s)) (snd (Libc.strtok None LSH_TOK_DELIM s)).
Proof.
  rewrite skip_delims. unfold Libc.strtok.
  destruct (Libc.advance (Libc.strspn s LSH_TOK_DELIM) s) as [|c r] eqn:Hskip.
  - reflexivity.
  - pose proof (skip_delims_head _ _ _ Hskip) as Hc.
    rewrite scan_word.
    assert (Hn : exists n, Libc.strcspn (String c r) LSH_TOK_DELIM = S n).
    { rewrite strcspn_cons, Hc. eauto. }
    destruct Hn as [n Hn]. rewrite Hn.
    destruct (Libc.advance (S n) (String c r)) as [|d after] eqn:Hadv.
    + reflexivity.
    + reflexivity.
Qed.

Lemma strtok_first (line save : string) :
  Libc.strtok (Some line) LSH_TOK_DELIM save = Libc.strtok None LSH_TOK_DELIM (Libc.c_str line).
Proof. reflexivity. Qed.

End Strings.

(** ** Allocation *)

Section Allocation.

Lemma set_allocs_same (w : world) : set_allocs (allocs w) w = w.
Proof. destruct w; reflexivity. Qed.

Lemma allocated_refl (w : world) : allocated w w.
Proof.
  split; [symmetry; apply set_allocs_same|]. exists []. reflexivity.
Qed.

Lemma allocated_trans (a b c : world) :
  allocated a b -> allocated b c -> allocated a c.
Proof.
  intros [Hb [u Hu]] [Hc [v Hv]]. split.
  - rewrite Hc at 1. rewrite Hb. reflexivity.
  - exists (u ++ v)%list. rewrite Hu, Hv, app_assoc. reflexivity.
Qed.

Lemma alloc_cases (w : world) :
  (fst (alloc w) = true /\ allocated w (snd (alloc w))) \/
  (fst (alloc w) = false /\ In false (allocs w)).
Proof.
  unfold alloc. destruct (allocs w) as [|[|] rest] eqn:E; simpl.
  - left. split; [reflexivity|apply allocated_refl].
  - left. split; [reflexivity|]. split; [reflexivity|].
    exists [true]. exact E.
  - right. auto.
Qed.

Lemma allocated_failure (w w' : world) :
  allocated w w' -> In false (allocs w') -> In false (allocs w).
Proof.
  intros [_ [u Hu]] H. rewrite Hu. apply in_or_app. auto.
Qed.

Lemma allocated_memory_ok (w w' : world) :
  allocated w w' -> memory_ok w -> memory_ok w'.
Proof.
  intros Ha Hok H. apply Hok. eapply allocated_failure; eassumption.
Qed.

Lemma memory_ok_alloc (w : world) : memory_ok w -> fst (alloc w) = true.
Proof.
  intros Hok. destruct (alloc_cases w) as [[H _]|[_ H]]; [exact H|].
  contradiction.
Qed.

Lemma unless_out_of_memory_ok {A : Type} (w : world) (m : outcome A)
  (P : A -> world -> Prop) :
  unless_out_of_memory w m P -> memory_ok w ->
  exists a w', m = Ret a w' /\ P a w'.
Proof.
  unfold unless_out_of_memory.
  destruct m as [a w'|c w'|w'|w'|w'|w']; intros H Hok; try contradiction.
  - eauto.
  - destruct H as [_ H]. contradiction.
Qed.

Lemma unless_out_of_memory_weaken {A : Type} (w w1 : world) (m : outcome A)
  (P Q : A -> world -> Prop) :
  (In false (allocs w1) -> In false (allocs w)) ->
  unless_out_of_memory w1 m P ->
  (forall a w', P a w' -> Q a w') ->
  unless_out_of_memory w m Q.
Proof.
  unfold unless_out_of_memory.
  destruct m as [a w'|c w'|w'|w'|w'|w']; intros Ha H HPQ; auto.
  destruct H as [Hc Hin]. auto.
Qed.

Lemma unless_out_of_memory_later {A : Type} (w w1 : world) (m : outcome A)
  (P Q : A -> world -> Prop) :
  allocated w w1 ->
  unless_out_of_memory w1 m P ->
  (forall a w', P a w' -> Q a w') ->
  unless_out_of_memory w m Q.
Proof.
  intros Ha. apply unless_out_of_memory_weaken.
  apply allocated_failure. exact Ha.
Qed.

Lemma allocated_set_stdin (s : string) (w w' : world) :
  allocated w w' -> allocated (set_stdin s w) (set_stdin s w').
Proof.
  intros [Hw [u Hu]]. split.
  - rewrite Hw at 1. reflexivity.
  - exists u. exact Hu.
Qed.

End Allocation.

(** ** lsh_split_line *)

Section SplitLine.

Lemma vector_cons (tokens : argv) (t : string) (l : list string) :
  ((tokens ++ [Some t]) ++ vector l = tokens ++ vector (t :: l))%list.
Proof. unfold vector. simpl. rewrite <- app_assoc. reflexivity. Qed.

Lemma toks_after_next (t save : string) (token' : option string) (save' : string) :
  Libc.strtok None LSH_TOK_DELIM save = (token', save') ->
  toks_after (Some t) save = t :: toks_after token' save'.
Proof.
  intros H. simpl. rewrite strtok_fields, H. reflexivity.
Qed.

(** The loop stores the token in hand and those [strtok] still finds, then
    the sentinel. *)
Lemma split_loop_spec (token : option string) (save : string) (tokens : argv)
  (position bufsize : Z) (w : world) :
  unless_out_of_memory w (split_loop token save tokens position bufsize w)
    (fun args w' =>
       args = (tokens ++ vector (toks_after token save))%list /\ allocated w w').
Proof.
  funelim (split_loop token save tokens position bufsize w).
  - simpl. split; [reflexivity|apply allocated_refl].
  - rewrite (toks_after_next _ _ _ _ Hnext), <- vector_cons. exact H.
  - rewrite (toks_after_next _ _ _ _ Hnext), <- vector_cons.
    destruct (alloc_cases w) as [[_ Ha]|[Hf _]];
      [rewrite Heq in Ha; simpl in Ha|rewrite Heq in Hf; discriminate].
    eapply unless_out_of_memory_later; [exact Ha|exact H|].
    intros a w' [-> Hw']. split; [reflexivity|].
    eapply allocated_trans; eassumption.
  - destruct (alloc_cases w) as [[Ht _]|[_ Hin]];
      [rewrite Heq in Ht; discriminate|].
    split; [reflexivity|exact Hin].
Qed.

Lemma lsh_split_line_spec (line : string) (w : world) :
  unless_out_of_memory w (lsh_split_line line w)
    (fun args w' => args = vector (spec_tokens line) /\ allocated w w').
Proof.
  unfold lsh_split_line.
  destruct (alloc_cases w) as [[Ht Ha]|[Hf Hin]];
    destruct (alloc w) as [ok w1]; simpl in *; subst ok; simpl.
  - rewrite strtok_first.
    destruct (Libc.strtok None LSH_TOK_DELIM (Libc.c_str line)) as [token save] eqn:E.
    eapply unless_out_of_memory_later;
      [exact Ha|apply split_loop_spec|].
    intros a w' [-> Hw']. split.
    + unfold spec_tokens. rewrite strtok_fields, E. reflexivity.
    + eapply allocated_trans; eassumption.
  - split; [reflexivity|exact Hin].
Qed.

End SplitLine.

(** ** lsh_read_line *)

Section ReadLine.

(** The loop stores the characters up to the first newline or the end of
    the input, then the terminator, and leaves the input after that
    newline. *)
Lemma read_loop_spec (input : string) :
  forall (buffer : string) (position bufsize : Z) (w : world),
    unless_out_of_memory w (read_loop input buffer position bufsize w)
      (fun mem w' =>
         mem = buffer ++ line_of input ++ terminator /\
         allocated (set_stdin (after_line input) w) w').
Proof.
  induction input as [|ch rest IH]; intros buffer position bufsize w.
  - simpl. split; [reflexivity|apply allocated_refl].
  - cbn [read_loop line_of after_line].
    destruct (Ascii.eqb ch char_nl) eqn:Enl.
    + simpl. split; [reflexivity|apply allocated_refl].
    + destruct (position + 1 >=? bufsize).
      * destruct (alloc_cases (set_stdin rest w)) as [[Ht Ha]|[Hf Hin]];
          destruct (alloc (set_stdin rest w)) as [ok w1]; simpl in *; subst ok; simpl.
        -- eapply unless_out_of_memory_weaken; [|apply IH|].
           ++ apply (allocated_failure _ _ Ha).
           ++ intros mem w' [-> Hw']. split.
              ** rewrite append_snoc. reflexivity.
              ** eapply allocated_trans; [|exact Hw'].
                 apply (allocated_set_stdin (after_line rest)) in Ha. exact Ha.
        -- split; [reflexivity|exact Hin].
      * eapply unless_out_of_memory_weaken; [|apply IH|].
        -- simpl. auto.
        -- intros mem w' [-> Hw']. split.
           ++ rewrite append_snoc. reflexivity.
           ++ exact Hw'.
Qed.

Lemma lsh_read_line_spec (w : world) :
  unless_out_of_memory w (lsh_read_line w)
    (fun mem w' =>
       mem = line_of (stdin w) ++ terminator /\
       allocated (set_stdin (after_line (stdin w)) w) w').
Proof.
  unfold lsh_read_line.
  destruct (alloc_cases w) as [[Ht Ha]|[Hf Hin]];
    destruct (alloc w) as [ok w1]; simpl in *; subst ok; simpl.
  - assert (Hin : stdin w1 = stdin w) by (destruct Ha as [-> _]; reflexivity).
    rewrite Hin.
    eapply unless_out_of_memory_later; [exact Ha|apply read_loop_spec|].
    intros mem w' [-> Hw']. split; [reflexivity|].
    eapply allocated_trans; [|exact Hw'].
    apply allocated_set_stdin. exact Ha.
  - split; [reflexivity|exact Hin].
Qed.

(** The loop in the shape of the source: one [getchar] per turn. *)
Lemma read_loop_getchar (buffer : string) (position bufsize : Z) (w : world) :
  read_loop (stdin w) buffer position bufsize w =
  let (c, w1) := getchar w in
  if (c =? EOF) || (c =? Libc.code char_nl) then
    Ret (buffer ++ terminator) w1
  else
    let buffer := buffer ++ String (Libc.to_char c) EmptyString in
    let position := position + 1 in
    if position >=? bufsize then
      let bufsize := bufsize + LSH_RL_BUFSIZE in
      let (ok, w2) := alloc w1 in
      if negb ok then allocation_error w2
      else read_loop (stdin w1) buffer position bufsize w2
    else read_loop (stdin w1) buffer position bufsize w1.
Proof.
  unfold getchar. destruct (stdin w) as [|ch rest] eqn:E.
  - simpl. rewrite <- E. destruct w; reflexivity.
  - cbn [read_loop]. cbn [set_stdin stdin].
    assert (Hc : (Libc.code ch =? EOF) = false).
    { apply Z.eqb_neq. unfold Libc.code, EOF. lia. }
    assert (Hnl : (Libc.code ch =? Libc.code char_nl) = Ascii.eqb ch char_nl).
    { destruct (Ascii.eqb ch char_nl) eqn:Enl.
      - apply Ascii.eqb_eq in Enl. subst ch. reflexivity.
      - apply Z.eqb_neq. intros H. apply code_inj in H.
        apply Ascii.eqb_neq in Enl. contradiction. }
    assert (Hch : Libc.to_char (Libc.code ch) = ch).
    { unfold Libc.to_char, Libc.code.
      rewrite Z.mod_small.
      - rewrite N2Z.id. apply ascii_N_embedding.
      - pose proof (N_ascii_bounded ch). lia. }
    rewrite Hc, Hnl, Hch. simpl orb.
    destruct (Ascii.eqb ch char_nl); reflexivity.
Qed.

End ReadLine.

(** ** Builtins and dispatch *)

Section Dispatch.

(** The scan of the builtin table, case by case. *)
Lemma lsh_execute_dispatch (args : argv) (w : world) :
  lsh_execute args w =
  match cell args 0 with
  | None => Ret 1 w
  | Some name =>
      if String.eqb (Libc.c_str name) "cd" then lsh_cd args w
      else if String.eqb (Libc.c_str name) "help" then lsh_help args w
      else if String.eqb (Libc.c_str name) "exit" then lsh_exit args w
      else lsh_launch args w
  end.
Proof.
  unfold lsh_execute. destruct (cell args 0) as [name|]; [|reflexivity].
  change (seq 0 lsh_num_builtins) with [0; 1; 2]%nat.
  cbn [find nth builtin_str]. rewrite !strcmp_eqb.
  change (Libc.c_str "cd") with "cd".
  change (Libc.c_str "help") with "help".
  change (Libc.c_str "exit") with "exit".
  destruct (String.eqb (Libc.c_str name) "cd"); [reflexivity|].
  destruct (String.eqb (Libc.c_str name) "help"); [reflexivity|].
  destruct (String.eqb (Libc.c_str name) "exit"); reflexivity.
Qed.

Lemma lsh_execute_empty (args : argv) (w : world) :
  cell args 0 = None -> lsh_execute args w = Ret 1 w.
Proof. intros H. rewrite lsh_execute_dispatch, H. reflexivity. Qed.

Lemma lsh_execute_exit (args : argv) (w : world) :
  cell args 0 = Some "exit" -> lsh_execute args w = Ret 0 w.
Proof. intros H. rewrite lsh_execute_dispatch, H. reflexivity. Qed.

Lemma lsh_execute_external (args : argv) (name : string) (w : world) :
  cell args 0 = Some name ->
  ~ In (Libc.c_str name) builtin_str ->
  lsh_execute args w = lsh_launch args w.
Proof.
  intros H Hno. rewrite lsh_execute_dispatch, H.
  destruct (String.eqb (Libc.c_str name) "cd") eqn:E1;
    [apply String.eqb_eq in E1; exfalso; apply Hno; rewrite E1; simpl; auto|].
  destruct (String.eqb (Libc.c_str name) "help") eqn:E2;
    [apply String.eqb_eq in E2; exfalso; apply Hno; rewrite E2; simpl; auto|].
  destruct (String.eqb (Libc.c_str name) "exit") eqn:E3;
    [apply String.eqb_eq in E3; exfalso; apply Hno; rewrite E3; simpl; auto|].
  reflexivity.
Qed.

Lemma chdir_trace (path : string) (w : world) :
  trace (snd (chdir path w)) = Chdir path (fst (chdir path w)) :: trace w.
Proof.
  unfold chdir, syscall_ret.
  destruct (next_or (- ENOENT) (chdirs w)) as [r rest].
  destruct (r <? 0); reflexivity.
Qed.

Lemma chdir_answer (path : string) (w : world) (r : Z) (rest : list Z) :
  chdirs w = r :: rest ->
  chdir path w =
  if r <? 0
  then (-1, emit (Chdir path (-1)) (set_errno (- r) (set_chdirs rest w)))
  else (r, emit (Chdir path r) (set_chdirs rest w)).
Proof.
  intros H. unfold chdir, syscall_ret. rewrite H. simpl.
  destruct (r <? 0); reflexivity.
Qed.

Lemma lsh_cd_returns (args : argv) (w : world) :
  exists w', lsh_cd args w = Ret 1 w'.
Proof.
  unfold lsh_cd. destruct (cell args 1) as [path|]; [|eauto].
  destruct (chdir path w) as [r w1]. destruct (negb (r =? 0)); eauto.
Qed.

Lemma lsh_help_returns (args : argv) (w : world) :
  exists w', lsh_help args w = Ret 1 w' /\ List.length (trace w') = (7 + List.length (trace w))%nat.
Proof. eexists. split; reflexivity. Qed.

(** Any builtin other than [exit], and the launcher, leave a mark in the
    trace: an outcome that returns 1 in the world it started from shows
    that none of them ran. *)
Lemma trace_grows (e : event) (w w' : world) :
  trace w' = e :: trace w -> w' <> w.
Proof.
  intros H ->. apply (f_equal (@List.length event)) in H. simpl in H. lia.
Qed.

Lemma lsh_cd_marks (args : argv) (w : world) : lsh_cd args w <> Ret 1 w.
Proof.
  unfold lsh_cd. destruct (cell args 1) as [path|].
  - pose proof (chdir_trace path w) as Ht.
    destruct (chdir path w) as [r w1]. simpl in Ht.
    destruct (negb (r =? 0)); intros [= H].
    + apply (f_equal trace) in H. simpl in H. rewrite Ht in H.
      apply (f_equal (@List.length event)) in H. simpl in H. lia.
    + eapply trace_grows; eassumption.
  - intros [= H]. eapply trace_grows; [|exact H]. reflexivity.
Qed.

Lemma lsh_help_marks (args : argv) (w : world) : lsh_help args w <> Ret 1 w.
Proof.
  destruct (lsh_help_returns args w) as (w' & -> & Hlen).
  intros [= ->]. lia.
Qed.

Lemma lsh_exit_marks (args : argv) (w : world) : lsh_exit args w <> Ret 1 w.
Proof. discriminate. Qed.

Lemma wait_loop_trace (pid : Z) (pending : list wait_result) :
  forall st w, (List.length (trace w) <= List.length (trace (final (wait_loop pending pid st w))))%nat.
Proof.
  induction pending as [|r pending IH]; intros st w; [simpl; lia|].
  cbn [wait_loop].
  assert (Hlen : (List.length (trace w) <
          List.length (trace (snd (waitpid pid WUNTRACED r st (set_waits pending w)))))%nat).
  { destruct r; simpl; lia. }
  destruct (waitpid pid WUNTRACED r st (set_waits pending w)) as [[wpid st'] w1].
  simpl in Hlen.
  destruct st' as [s|]; [|simpl; lia].
  destruct (negb (Libc.WIFEXITED s) && negb (Libc.WIFSIGNALED s)).
  - specialize (IH (Some s) w1). lia.
  - simpl. lia.
Qed.

Lemma lsh_launch_marks (args : argv) (w : world) : lsh_launch args w <> Ret 1 w.
Proof.
  unfold lsh_launch. pose proof (fork_trace w) as Ht.
  destruct (fork w) as [pid w1]. simpl in Ht.
  destruct (pid =? 0).
  - destruct (execvp (cell args 0) args w1) as [w2|[r w2]]; discriminate.
  - destruct (pid <? 0).
    + intros [= H]. apply (f_equal trace) in H. simpl in H. rewrite Ht in H.
      apply (f_equal (@List.length event)) in H. simpl in H. lia.
    + pose proof (wait_loop_trace pid (waits w1) None w1) as Hlen.
      destruct (wait_loop (waits w1) pid None w1) as [u w2| | | | |];
        try discriminate.
      simpl in *. intros [= ->]. rewrite Ht in Hlen. simpl in Hlen. lia.
Qed.

End Dispatch.

(** ** What does not depend on the unread input *)

Section StdinBlind.

Lemma split_loop_step (t save : string) (tokens : argv) (position bufsize : Z)
  (w : world) :
  split_loop (Some t) save tokens position bufsize w =
  let (token', save') := Libc.strtok None LSH_TOK_DELIM save in
  let tokens := (tokens ++ [Some t])%list in
  let position := position + 1 in
  if position >=? bufsize then
    let (ok, w1) := alloc w in
    if negb ok then allocation_error w1
    else split_loop token' save' tokens position (bufsize + LSH_TOK_BUFSIZE) w1
  else split_loop token' save' tokens position bufsize w.
Proof.
  funelim (split_loop (Some t) save tokens position bufsize w).
  all: rewrite Hnext; cbn zeta; try rewrite Heq0; try rewrite Heq; reflexivity.
Qed.

Lemma alloc_set_stdin (s : string) (w : world) :
  alloc (set_stdin s w) = (fst (alloc w), set_stdin s (snd (alloc w))).
Proof. unfold alloc. simpl. destruct (allocs w); reflexivity. Qed.

Lemma bind_blind {A B : Type} (f : world -> outcome A)
  (k : A -> world -> outcome B) :
  stdin_blind f -> (forall a, stdin_blind (k a)) ->
  stdin_blind (fun w => bind (f w) k).
Proof.
  intros Hf Hk s w. rewrite Hf.
  destruct (f w) as [a w'| | | | |]; simpl; try reflexivity.
  apply Hk.
Qed.

Lemma split_loop_blind (token : option string) (save : string) (tokens : argv)
  (position bufsize : Z) :
  stdin_blind (split_loop token save tokens position bufsize).
Proof.
  intros s w.
  funelim (split_loop token save tokens position bufsize w).
  - simp split_loop. reflexivity.
  - rewrite split_loop_step, Hnext. cbn zeta. rewrite Heq. apply H.
  - rewrite split_loop_step, Hnext. cbn zeta.
    rewrite Heq0, alloc_set_stdin, Heq. simpl. apply H.
  - rewrite split_loop_step, Hnext. cbn zeta.
    rewrite Heq0, alloc_set_stdin, Heq. reflexivity.
Qed.

Lemma lsh_split_line_blind (line : string) : stdin_blind (lsh_split_line line).
Proof.
  intros s w. unfold lsh_split_line. rewrite alloc_set_stdin.
  destruct (alloc w) as [[|] w1]; simpl; [|reflexivity].
  destruct (Libc.strtok (Some line) LSH_TOK_DELIM "") as [token save].
  apply split_loop_blind.
Qed.

Lemma lsh_cd_blind (args : argv) : stdin_blind (lsh_cd args).
Proof.
  intros s w. unfold lsh_cd. destruct (cell args 1) as [path|]; [|reflexivity].
  unfold chdir, syscall_ret.
  change (chdirs (set_stdin s w)) with (chdirs w).
  destruct (next_or (- ENOENT) (chdirs w)) as [r rest].
  destruct (r <? 0); simpl; [reflexivity|destruct (r =? 0); reflexivity].
Qed.

Lemma lsh_help_blind (args : argv) : stdin_blind (lsh_help args).
Proof. intros s w. reflexivity. Qed.

Lemma lsh_exit_blind (args : argv) : stdin_blind (lsh_exit args).
Proof. intros s w. reflexivity. Qed.

Lemma wait_loop_blind (pid : Z) (pending : list wait_result) :
  forall st, stdin_blind (wait_loop pending pid st).
Proof.
  induction pending as [|r pending IH]; intros st s w; [reflexivity|].
  cbn [wait_loop].
  destruct r as [s0|e]; cbn [waitpid].
  - destruct (negb (Libc.WIFEXITED s0) && negb (Libc.WIFSIGNALED s0)).
    + exact (IH (Some s0) s
               (emit (Waitpid pid WUNTRACED (Waited s0)) (set_waits pending w))).
    + reflexivity.
  - destruct st as [s0|]; [|reflexivity].
    destruct (negb (Libc.WIFEXITED s0) && negb (Libc.WIFSIGNALED s0)).
    + exact (IH (Some s0) s
               (emit (Waitpid pid WUNTRACED (WaitFailed e))
                  (set_errno e (set_waits pending w)))).
    + reflexivity.
Qed.

Lemma lsh_launch_blind (args : argv) : stdin_blind (lsh_launch args).
Proof.
  intros s w. unfold lsh_launch, fork, syscall_ret.
  change (forks (set_stdin s w)) with (forks w).
  destruct (next_or (- EAGAIN) (forks w)) as [r rest].
  destruct (r <? 0) eqn:Er.
  - reflexivity.
  - destruct (r =? 0) eqn:E0.
    + unfold execvp, syscall_ret.
      destruct (cell args 0) as [name|].
      * cbn [execs emit set_forks set_stdin].
        destruct (next_or (- ENOENT) (execs w)) as [x more].
        destruct (x <? 0); reflexivity.
      * reflexivity.
    + rewrite Er.
      apply (bind_blind (fun w => wait_loop (waits w) r None w)
                        (fun _ w => Ret 1 w)
               (fun s w => wait_loop_blind r (waits w) None s w)
               (fun _ s w => eq_refl) s
               (emit (Fork r) (set_forks rest w))).
Qed.

Lemma lsh_execute_blind (args : argv) : stdin_blind (lsh_execute args).
Proof.
  intros s w. rewrite !lsh_execute_dispatch.
  destruct (cell args 0) as [name|]; [|reflexivity].
  destruct (String.eqb (Libc.c_str name) "cd"); [apply lsh_cd_blind|].
  destruct (String.eqb (Libc.c_str name) "help"); [apply lsh_help_blind|].
  destruct (String.eqb (Libc.c_str name) "exit"); [apply lsh_exit_blind|].
  apply lsh_launch_blind.
Qed.

End StdinBlind.

(** ** One cycle of the loop *)

Section Cycle.

Lemma spec_tokens_terminated (line : string) :
  spec_tokens (line ++ terminator) = spec_tokens line.
Proof. unfold spec_tokens, terminator. rewrite c_str_terminated. reflexivity. Qed.

(** With memory at hand, a cycle prints the prompt, takes one line off
    the input and dispatches its tokens. *)
Lemma loop_body_reads (w : world) :
  memory_ok w ->
  exists w2,
    allocated (set_stdin (after_line (stdin w)) (printf "> " w)) w2 /\
    loop_body w = lsh_execute (vector (spec_tokens (line_of (stdin w)))) w2.
Proof.
  intros Hok. unfold loop_body.
  destruct (unless_out_of_memory_ok _ _ _ (lsh_read_line_spec (printf "> " w)) Hok)
    as (mem & w1 & -> & -> & Hw1).
  cbn [bind].
  assert (Hok1 : memory_ok w1) by (eapply allocated_memory_ok; eassumption).
  destruct (unless_out_of_memory_ok _ _ _
              (lsh_split_line_spec (line_of (stdin w) ++ terminator) w1) Hok1)
    as (args & w2 & Hsplit & -> & Hw2).
  cbn [stdin printf emit]. rewrite Hsplit.
  cbn [bind]. exists w2. split.
  - eapply allocated_trans; eassumption.
  - rewrite spec_tokens_terminated. reflexivity.
Qed.

Lemma lsh_loop_step (n : nat) (w : world) :
  lsh_loop (S n) w =
  bind (loop_body w) (fun status w =>
    if negb (status =? 0) then lsh_loop n w else Ret tt w).
Proof. reflexivity. Qed.

Lemma lsh_loop_continue (n : nat) (w w' : world) (status : Z) :
  loop_body w = Ret status w' -> status <> 0 ->
  lsh_loop (S n) w = lsh_loop n w'.
Proof.
  intros H Hs. rewrite lsh_loop_step, H. cbn [bind].
  destruct (status =? 0) eqn:E; [apply Z.eqb_eq in E; contradiction|reflexivity].
Qed.

Lemma lsh_loop_stop (n : nat) (w w' : world) :
  loop_body w = Ret 0 w' -> lsh_loop (S n) w = Ret tt w'.
Proof. intros H. rewrite lsh_loop_step, H. reflexivity. Qed.

(** [Prompting] only marks the end of the observation of the loop. *)
Lemma lsh_launch_not_prompting (args : argv) (w w' : world) :
  lsh_launch args w <> Prompting w'.
Proof.
  destruct (Z.eq_dec (fst (fork w)) 0) as [Hchild|Hparent].
  - unfold lsh_launch. destruct (fork w) as [p w1]. simpl in Hchild. subst p.
    change (0 =? 0) with true. cbv iota.
    destruct (execvp (cell args 0) args w1) as [w2|[r w2]]; discriminate.
  - pose proof (lsh_launch_parent_outcomes args w Hparent) as Hout.
    intros H. rewrite H in Hout. exact Hout.
Qed.

Lemma lsh_execute_not_prompting (args : argv) (w w' : world) :
  lsh_execute args w <> Prompting w'.
Proof.
  rewrite lsh_execute_dispatch.
  destruct (cell args 0) as [name|]; [|discriminate].
  destruct (String.eqb (Libc.c_str name) "cd").
  { destruct (lsh_cd_returns args w) as [w1 ->]. discriminate. }
  destruct (String.eqb (Libc.c_str name) "help"); [discriminate|].
  destruct (String.eqb (Libc.c_str name) "exit"); [discriminate|].
  apply lsh_launch_not_prompting.
Qed.

Lemma loop_body_not_prompting (w w' : world) : loop_body w <> Prompting w'.
Proof.
  unfold loop_body.
  pose proof (lsh_read_line_spec (printf "> " w)) as Hr.
  destruct (lsh_read_line (printf "> " w)) as [line w1| | | | |];
    try contradiction; try discriminate.
  cbn [bind].
  pose proof (lsh_split_line_spec line w1) as Hs.
  destruct (lsh_split_line line w1) as [args w2| | | | |];
    try contradiction; try discriminate.
  cbn [bind]. apply lsh_execute_not_prompting.
Qed.

Lemma lsh_loop_resume (k : nat) :
  forall (m : nat) (w w1 : world),
    lsh_loop k w = Prompting w1 -> lsh_loop (k + m) w = lsh_loop m w1.
Proof.
  induction k as [|k IH]; intros m w w1 H.
  - injection H as ->. reflexivity.
  - change (S k + m)%nat with (S (k + m)). rewrite lsh_loop_step in *.
    pose proof (loop_body_not_prompting w) as Hnp.
    destruct (loop_body w) as [status w2|c w2|w2|w2|w2|w2]; try discriminate;
      [|exfalso; apply (Hnp w2); reflexivity].
    cbn [bind] in *.
    destruct (negb (status =? 0)); [|discriminate].
    apply IH. exact H.
Qed.

(** *** End of input against newline *)

Lemma but_stdin_alloc (w1 w2 : world) :
  set_stdin "" w1 = set_stdin "" w2 ->
  fst (alloc w1) = fst (alloc w2) /\
  set_stdin "" (snd (alloc w1)) = set_stdin "" (snd (alloc w2)).
Proof.
  intros H.
  pose proof (alloc_set_stdin "" w1) as H1.
  pose proof (alloc_set_stdin "" w2) as H2.
  rewrite H, H2 in H1.
  pose proof (f_equal fst H1) as Ha. pose proof (f_equal snd H1) as Hb.
  cbn [fst snd] in Ha, Hb. split; symmetry; assumption.
Qed.

Lemma read_loop_eof_newline (chars : string) :
  forall (rest buffer : string) (position bufsize : Z) (w1 w2 : world),
    all_chars not_nl chars = true ->
    set_stdin "" w1 = set_stdin "" w2 ->
    but_stdin (read_loop chars buffer position bufsize w1) =
    but_stdin (read_loop (chars ++ String char_nl rest) buffer position bufsize w2).
Proof.
  unfold but_stdin.
  induction chars as [|c chars IH]; intros rest buffer position bufsize w1 w2 Hnl Hw.
  - simpl. f_equal. exact Hw.
  - simpl in Hnl. apply andb_prop in Hnl as [Hc Hnl]. unfold not_nl in Hc.
    cbn [append read_loop].
    destruct (Ascii.eqb c char_nl); [discriminate|].
    destruct (position + 1 >=? bufsize).
    + rewrite !alloc_set_stdin.
      destruct (but_stdin_alloc _ _ Hw) as [Hok Hw'].
      rewrite <- Hok. destruct (fst (alloc w1)); cbn [negb fst snd].
      * apply IH; [exact Hnl|exact Hw'].
      * unfold allocation_error. cbn [in_world]. f_equal.
        change (eprintf ("lsh: allocation error" ++ nl) (set_stdin "" (snd (alloc w1))) =
                eprintf ("lsh: allocation error" ++ nl) (set_stdin "" (snd (alloc w2)))).
        rewrite Hw'. reflexivity.
    + apply IH; [exact Hnl|exact Hw].
Qed.

Lemma lsh_read_line_eof_newline (chars rest : string) (w : world) :
  all_chars not_nl chars = true ->
  but_stdin (lsh_read_line (set_stdin chars w)) =
  but_stdin (lsh_read_line (set_stdin (chars ++ String char_nl rest) w)).
Proof.
  intros Hnl. unfold lsh_read_line. rewrite !alloc_set_stdin.
  destruct (fst (alloc w)); cbn [negb fst snd].
  - cbn [stdin set_stdin]. apply read_loop_eof_newline; [exact Hnl|reflexivity].
  - reflexivity.
Qed.

Lemma but_stdin_bind {A B : Type} (m : outcome A) (k : A -> world -> outcome B) :
  (forall a, stdin_blind (k a)) ->
  but_stdin (bind m k) = but_stdin (bind (but_stdin m) k).
Proof.
  intros Hk. unfold but_stdin.
  destruct m as [a w| | | | |]; cbn [bind in_world]; try reflexivity.
  rewrite (Hk a "" w). destruct (k a w); reflexivity.
Qed.

Lemma loop_body_eof_newline (chars rest : string) (w : world) :
  all_chars not_nl chars = true ->
  but_stdin (loop_body (set_stdin chars w)) =
  but_stdin (loop_body (set_stdin (chars ++ String char_nl rest) w)).
Proof.
  intros Hnl. unfold loop_body.
  assert (Hk : forall line, stdin_blind (fun w =>
            bind (lsh_split_line line w) (fun args w => lsh_execute args w))).
  { intros line. apply bind_blind.
    - apply lsh_split_line_blind.
    - intros args. apply lsh_execute_blind. }
  rewrite (but_stdin_bind _ _ Hk).
  rewrite (but_stdin_bind (lsh_read_line (printf "> " (set_stdin (chars ++ _) w))) _ Hk).
  change (printf "> " (set_stdin chars w)) with (set_stdin chars (printf "> " w)).
  change (printf "> " (set_stdin (chars ++ String char_nl rest) w))
    with (set_stdin (chars ++ String char_nl rest) (printf "> " w)).
  rewrite (lsh_read_line_eof_newline chars rest (printf "> " w) Hnl).
  reflexivity.
Qed.

End Cycle.

(** ** Algebra of the tokenizer *)

Section Tokens.

Lemma cons_word_nonempty (word : string) (l : list string) :
  word <> EmptyString -> cons_word word l = word :: l.
Proof.
  intros H. unfold cons_word.
  destruct (String.eqb word EmptyString) eqn:E; [|reflexivity].
  apply String.eqb_eq in E. contradiction.
Qed.

Lemma spec_fields_cons (c : ascii) (rest word : string) :
  spec_fields (String c rest) word =
  if is_delim c then cons_word word (spec_fields rest EmptyString)
  else spec_fields rest (word ++ String c EmptyString).
Proof. reflexivity. Qed.

(** Leading delimiters are dropped. *)
Lemma spec_fields_lead (lead s : string) :
  all_chars is_delim lead = true ->
  spec_fields (lead ++ s) EmptyString = spec_fields s EmptyString.
Proof.
  induction lead as [|c lead IH]; intros H; [reflexivity|].
  simpl in H. apply andb_prop in H as [Hc H].
  cbn [append]. rewrite spec_fields_cons, Hc. apply IH, H.
Qed.

(** The characters of a word are gathered. *)
Lemma spec_fields_word (t s word : string) :
  all_chars word_char t = true ->
  spec_fields (t ++ s) word = spec_fields s (word ++ t).
Proof.
  revert word. induction t as [|c t IH]; intros word H.
  - simpl. rewrite append_empty_r. reflexivity.
  - simpl in H. apply andb_prop in H as [Hc H].
    unfold word_char in Hc. apply andb_prop in Hc as [Hc _].
    cbn [append]. rewrite spec_fields_cons.
    destruct (is_delim c); [discriminate|].
    rewrite IH by assumption. rewrite append_snoc. reflexivity.
Qed.

Lemma token_ok_inv (t : string) :
  token_ok t = true -> t <> EmptyString /\ all_chars word_char t = true.
Proof.
  unfold token_ok. intros H. apply andb_prop in H as [Hne Hall]. split.
  - intros ->. discriminate.
  - exact Hall.
Qed.

(** A token followed by a delimiter is cut there. *)
Lemma spec_fields_token (t : string) (d : ascii) (rest : string) :
  token_ok t = true -> is_delim d = true ->
  spec_fields (t ++ String d rest) EmptyString = t :: spec_fields rest EmptyString.
Proof.
  intros Ht Hd. apply token_ok_inv in Ht as [Hne Hall].
  rewrite spec_fields_word by assumption.
  rewrite spec_fields_cons, Hd. apply cons_word_nonempty. exact Hne.
Qed.

(** A token at the end of the line is closed by the end. *)
Lemma spec_fields_last (t : string) :
  token_ok t = true -> spec_fields t EmptyString = [t].
Proof.
  intros Ht. apply token_ok_inv in Ht as [Hne Hall].
  rewrite <- (append_empty_r t) at 1.
  rewrite spec_fields_word by assumption.
  apply cons_word_nonempty. exact Hne.
Qed.

(** Every token found is well formed. *)
Lemma spec_fields_tokens_ok (s : string) :
  forall word,
    all_chars not_nul s = true ->
    all_chars word_char word = true ->
    Forall (fun t => token_ok t = true) (spec_fields s word).
Proof.
  assert (Hclose : forall word l,
             all_chars word_char word = true ->
             Forall (fun t => token_ok t = true) l ->
             Forall (fun t => token_ok t = true) (cons_word word l)).
  { intros word l Hw Hl. unfold cons_word.
    destruct (String.eqb word EmptyString) eqn:E; [exact Hl|].
    constructor; [|exact Hl]. unfold token_ok. rewrite E. exact Hw. }
  induction s as [|c s IH]; intros word Hs Hw.
  - apply (Hclose word []); [exact Hw|constructor].
  - simpl in Hs. apply andb_prop in Hs as [Hc Hs].
    rewrite spec_fields_cons. destruct (is_delim c) eqn:Ed.
    + apply Hclose; [exact Hw|]. apply IH; [exact Hs|reflexivity].
    + apply IH; [exact Hs|]. rewrite all_chars_app, Hw. simpl.
      unfold word_char. rewrite Ed, Hc. reflexivity.
Qed.

Lemma spec_tokens_ok (line : string) :
  Forall (fun t => token_ok t = true) (spec_tokens line).
Proof.
  apply spec_fields_tokens_ok; [apply c_str_no_nul|reflexivity].
Qed.

Lemma token_no_nul (t : string) : token_ok t = true -> all_chars not_nul t = true.
Proof.
  intros Ht. apply token_ok_inv in Ht as [_ Hall].
  revert Hall. apply all_chars_weaken. unfold word_char.
  intros c H. apply andb_prop in H as [_ H]. exact H.
Qed.

Lemma join_no_nul (toks : list string) :
  Forall (fun t => token_ok t = true) toks -> all_chars not_nul (join toks) = true.
Proof.
  induction 1 as [|t toks Ht Htoks IH]; [reflexivity|].
  destruct toks as [|t' toks]; [apply token_no_nul, Ht|].
  change (join (t :: t' :: toks)) with (t ++ String char_space (join (t' :: toks))).
  rewrite all_chars_app, (token_no_nul t Ht). simpl. exact IH.
Qed.

(** Tokens joined by single spaces split into the same tokens. *)
Lemma spec_tokens_join (toks : list string) :
  Forall (fun t => token_ok t = true) toks -> spec_tokens (join toks) = toks.
Proof.
  intros Hall. unfold spec_tokens.
  rewrite (c_str_fixed _ (join_no_nul toks Hall)).
  induction Hall as [|t toks Ht Htoks IH]; [reflexivity|].
  destruct toks as [|t' toks]; [apply spec_fields_last, Ht|].
  change (join (t :: t' :: toks)) with (t ++ String char_space (join (t' :: toks))).
  rewrite spec_fields_token by (reflexivity || assumption).
  rewrite IH. reflexivity.
Qed.

Lemma vector_inj (a b : list string) : vector a = vector b -> a = b.
Proof.
  unfold vector. intros H. apply app_inv_tail in H.
  revert b H. induction a as [|x a IH]; intros [|y b] H; try discriminate.
  - reflexivity.
  - simpl in H. injection H as -> H. f_equal. apply IH, H.
Qed.

Lemma lsh_split_line_yields (line : string) (w : world) :
  memory_ok w ->
  exists w', lsh_split_line line w = Ret (vector (spec_tokens line)) w' /\
             allocated w w'.
Proof.
  intros Hok.
  destruct (unless_out_of_memory_ok _ _ _ (lsh_split_line_spec line w) Hok)
    as (args & w' & H & -> & Hw').
  eauto.
Qed.

End Tokens.

(** * The claims *)

(** ** The process launcher *)

(** C1.  When the launcher waits for its child, a report that the child has
    stopped never ends the wait.  In the parent ([fork] gave the pid of the
    child), with stop reports only the launcher never returns; with stop
    reports followed by a status that says the child exited or was killed,
    it calls [waitpid] once per report, returns 1 at that status and leaves
    the later reports unread; and whenever it returns, it does so at such a
    status, every status before it being neither. *)
Theorem C1_stopped_child_never_ends_the_wait
  (args : argv) (w : world) (pid : Z) (later : list Z) (stops : list wait_result) :
  forks w = pid :: later -> 0 < pid ->
  forallb stopped stops = true ->
  (waits w = stops ->
   exists w', lsh_launch args w = Waiting w' /\
              trace w' = (wait_events pid stops ++ Fork pid :: trace w)%list) /\
  (forall s rest,
      terminal s = true -> waits w = (stops ++ Waited s :: rest)%list ->
      exists w', lsh_launch args w = Ret 1 w' /\ waits w' = rest /\
                 trace w' = (Waitpid pid WUNTRACED (Waited s)
                               :: wait_events pid stops ++ Fork pid :: trace w)%list) /\
  (forall v w',
      lsh_launch args w = Ret v w' ->
      exists before s,
        waits w = (before ++ Waited s :: waits w')%list /\ terminal s = true /\
        forall s', In (Waited s') before -> terminal s' = false).
Proof.
  intros Hfork Hpid Hstops.
  assert (Hf : fork w = (pid, emit (Fork pid) (set_forks later w)))
    by (apply fork_gives; [exact Hfork|lia]).
  assert (Hl : lsh_launch args w =
               bind (wait_loop (waits w) pid None (emit (Fork pid) (set_forks later w)))
                    (fun _ w => Ret 1 w)).
  { rewrite lsh_launch_parent; rewrite Hf; [reflexivity|exact Hpid]. }
  rewrite Hl. repeat split.
  - intros ->. rewrite wait_loop_only_stops by exact Hstops.
    eexists. split; reflexivity.
  - intros s rest Hs ->. rewrite wait_loop_through_stops by assumption.
    eexists. repeat split; reflexivity.
  - intros v w' Hret.
    destruct (wait_loop (waits w) pid None (emit (Fork pid) (set_forks later w)))
      as [[] w1| | | | |] eqn:Hloop; try discriminate.
    injection Hret as <- <-.
    apply (wait_loop_returns_on_terminal pid (waits w) None _ w1 I Hloop).
Qed.

Lemma C1_witness :
  exists w', lsh_launch [Some "vi"; None] suspended_twice = Ret 1 w' /\
             waits w' = [Waited 0].
Proof.
  destruct (C1_stopped_child_never_ends_the_wait
              [Some "vi"; None] suspended_twice 4242 []
              [Waited (Libc.W_STOPCODE 19); Waited (Libc.W_STOPCODE 20)]
              eq_refl eq_refl eq_refl) as (_ & H & _).
  destruct (H (Libc.W_EXITCODE 3 0) [Waited 0] eq_refl eq_refl) as (w' & Hr & Hw & _).
  exists w'. split; assumption.
Defined.

(** C4.  In the parent the launcher returns 1 on every path: whatever it
    returns is 1 and the process neither exits nor is replaced there; when
    [fork] fails it reports the error with [perror] and returns 1; when the
    child reaches a terminal state, after any number of stops, it returns 1
    whatever the status, in particular for every exit code. *)
Theorem C4_launcher_returns_continue_in_the_parent (args : argv) (w : world) :
  fst (fork w) <> 0 ->
  (forall v w', lsh_launch args w = Ret v w' -> v = 1) /\
  (forall code w', lsh_launch args w <> Exited code w') /\
  (forall w', lsh_launch args w <> Replaced w') /\
  (fst (fork w) < 0 ->
   exists w', lsh_launch args w = Ret 1 w' /\
              trace w' = Perror "lsh" (errno w') :: Fork (-1) :: trace w) /\
  (0 < fst (fork w) ->
   forall stops s rest,
     forallb stopped stops = true -> terminal s = true ->
     waits w = (stops ++ Waited s :: rest)%list ->
     yields (lsh_launch args w) 1) /\
  (0 < fst (fork w) ->
   forall code rest,
     waits w = Waited (Libc.W_EXITCODE code 0) :: rest ->
     yields (lsh_launch args w) 1).
Proof.
  intros Hpid.
  pose proof (lsh_launch_parent_outcomes args w Hpid) as Hout.
  assert (Hwait : 0 < fst (fork w) ->
            forall stops s rest,
              forallb stopped stops = true -> terminal s = true ->
              waits w = (stops ++ Waited s :: rest)%list ->
              yields (lsh_launch args w) 1).
  { intros Hpos stops s rest Hstops Hs Hw.
    rewrite lsh_launch_parent by exact Hpos.
    rewrite fork_waits, Hw, wait_loop_through_stops by assumption.
    eexists. reflexivity. }
  repeat split.
  - intros v w' H. rewrite H in Hout. exact Hout.
  - intros code w' H. rewrite H in Hout. exact Hout.
  - intros w' H. rewrite H in Hout. exact Hout.
  - intros Hneg. rewrite lsh_launch_fork_error by exact Hneg.
    eexists. split; [reflexivity|].
    cbn [perror emit trace errno]. rewrite fork_trace.
    pose proof (fork_result_range w).
    replace (fst (fork w)) with (-1) by lia. reflexivity.
  - exact Hwait.
  - intros Hpos code rest Hw.
    apply (Hwait Hpos [] (Libc.W_EXITCODE code 0) rest);
      [reflexivity|apply exit_status_terminal|exact Hw].
Qed.

Lemma C4_witness : yields (lsh_launch [Some "false"; None] child_fails_with_7) 1.
Proof.
  assert (Hpid : fst (fork child_fails_with_7) <> 0) by (vm_compute; discriminate).
  destruct (C4_launcher_returns_continue_in_the_parent
              [Some "false"; None] child_fails_with_7 Hpid)
    as (_ & _ & _ & _ & _ & H).
  apply (H eq_refl 7 []). reflexivity.
Defined.

(** ** What a cycle leaves unchanged *)

Lemma allocated_fields (a b : world) :
  allocated a b ->
  stdin b = stdin a /\ chdirs b = chdirs a /\ forks b = forks a /\
  execs b = execs a /\ waits b = waits a /\ errno b = errno a /\
  trace b = trace a.
Proof.
  intros [H _]. rewrite H. repeat split; reflexivity.
Qed.

Lemma vector_head (name : string) (more : list string) :
  cell (vector (name :: more)) 0 = Some name.
Proof. reflexivity. Qed.

Lemma strings_of_vector (toks : list string) : strings_of (vector toks) = toks.
Proof.
  induction toks as [|t toks IH]; [reflexivity|].
  unfold vector in *. simpl. rewrite IH. reflexivity.
Qed.

Lemma token_is_c_string (t : string) : token_ok t = true -> Libc.c_str t = t.
Proof. intros H. apply c_str_fixed, token_no_nul, H. Qed.

(** The child: [execvp] fails, the error is reported, the child exits. *)
Lemma lsh_launch_child_fails (args : argv) (name : string) (w : world)
  (later : list Z) (r : Z) (more : list Z) :
  cell args 0 = Some name ->
  forks w = 0 :: later -> execs w = r :: more -> r < 0 ->
  exists w',
    lsh_launch args w = Exited EXIT_FAILURE w' /\
    errno w' = - r /\
    trace w' = Perror "lsh" (- r)
                 :: Execvp (Some name) (strings_of args) (Some (-1))
                 :: Fork 0 :: trace w.
Proof.
  intros Hname Hf He Hr. unfold lsh_launch.
  rewrite (fork_gives w 0 later Hf) by lia.
  change (0 =? 0) with true. cbv iota. rewrite Hname.
  unfold execvp, syscall_ret. cbn [execs emit set_forks]. rewrite He.
  cbn [next_or]. apply Z.ltb_lt in Hr. rewrite Hr.
  change (-1 =? -1) with true. cbv iota.
  eexists. repeat split.
Qed.

(** The parent: one terminal status ends the wait. *)
Lemma lsh_launch_parent_exit (args : argv) (w : world) (pid : Z) (later : list Z)
  (s : Z) (rest : list wait_result) :
  forks w = pid :: later -> 0 < pid -> terminal s = true ->
  waits w = Waited s :: rest ->
  exists w',
    lsh_launch args w = Ret 1 w' /\ stdin w' = stdin w /\ waits w' = rest /\
    trace w' = Waitpid pid WUNTRACED (Waited s) :: Fork pid :: trace w.
Proof.
  intros Hf Hpid Hs Hw.
  assert (Hfork : fork w = (pid, emit (Fork pid) (set_forks later w)))
    by (apply fork_gives; [exact Hf|lia]).
  rewrite lsh_launch_parent; rewrite Hfork; [|exact Hpid].
  cbn [fst snd waits emit set_forks]. rewrite Hw.
  rewrite (wait_loop_through_stops pid [] None _ s rest eq_refl Hs).
  eexists. repeat split.
Qed.

(** C7.  A command line whose first token names neither a builtin nor a
    program that can be loaded.  In the child ([fork] gave 0) [execvp]
    fails: the error is reported with [perror] and the child exits with
    [EXIT_FAILURE].  In the parent, once [waitpid] reports that exit, the
    cycle gives 1 and the loop goes on with the next cycle. *)
Theorem C7_missing_executable_does_not_stop_the_loop
  (w : world) (name : string) (more : list string) :
  memory_ok w ->
  spec_tokens (line_of (stdin w)) = name :: more ->
  ~ In name builtin_str ->
  (forall later r others,
      forks w = 0 :: later -> execs w = r :: others -> r < 0 ->
      exists w',
        loop_body w = Exited EXIT_FAILURE w' /\
        trace w' = Perror "lsh" (- r)
                     :: Execvp (Some name) (name :: more) (Some (-1))
                     :: Fork 0 :: Printf "> " :: trace w) /\
  (forall pid later rest,
      forks w = pid :: later -> 0 < pid ->
      waits w = Waited (Libc.W_EXITCODE EXIT_FAILURE 0) :: rest ->
      exists w',
        loop_body w = Ret 1 w' /\
        (forall n, lsh_loop (S n) w = lsh_loop n w') /\
        stdin w' = after_line (stdin w) /\
        trace w' = Waitpid pid WUNTRACED (Waited (Libc.W_EXITCODE EXIT_FAILURE 0))
                     :: Fork pid :: Printf "> " :: trace w).
Proof.
  intros Hok Htoks Hname.
  destruct (loop_body_reads w Hok) as (w2 & Hw2 & Hbody).
  rewrite Htoks in Hbody.
  destruct (allocated_fields _ _ Hw2) as (Hin & _ & Hforks & Hexecs & Hwaits & _ & Htrace).
  assert (Htok : token_ok name = true).
  { pose proof (spec_tokens_ok (line_of (stdin w))) as Hall.
    rewrite Htoks in Hall. inversion Hall; assumption. }
  assert (Hext : lsh_execute (vector (name :: more)) w2 =
                 lsh_launch (vector (name :: more)) w2).
  { apply (lsh_execute_external _ name); [reflexivity|].
    rewrite (token_is_c_string name Htok). exact Hname. }
  rewrite Hext in Hbody. split.
  - intros later r others Hf He Hr.
    destruct (lsh_launch_child_fails (vector (name :: more)) name w2 later r others)
      as (w' & Hl & _ & Ht); try assumption; try reflexivity.
    + rewrite Hforks. exact Hf.
    + rewrite Hexecs. exact He.
    + exists w'. rewrite Hbody, Hl. split; [reflexivity|].
      rewrite Ht, Htrace, strings_of_vector. reflexivity.
  - intros pid later rest Hf Hpid Hw.
    destruct (lsh_launch_parent_exit (vector (name :: more)) w2 pid later
                (Libc.W_EXITCODE EXIT_FAILURE 0) rest) as (w' & Hl & Hs & Hws & Ht);
      try assumption.
    + rewrite Hforks. exact Hf.
    + apply exit_status_terminal.
    + rewrite Hwaits. exact Hw.
    + exists w'. rewrite Hbody. split; [exact Hl|]. split; [|split].
      * intros n. apply (lsh_loop_continue n w w' 1); [|lia].
        rewrite Hbody. exact Hl.
      * rewrite Hs, Hin. reflexivity.
      * rewrite Ht, Htrace. reflexivity.
Qed.

Lemma C7_witness :
  (exists w', loop_body no_such_program_child = Exited EXIT_FAILURE w' /\
              trace w' = [Perror "lsh" ENOENT;
                          Execvp (Some "frobnicate") ["frobnicate"; "-x"] (Some (-1));
                          Fork 0; Printf "> "]) /\
  (exists w', loop_body no_such_program_parent = Ret 1 w' /\
              forall n, lsh_loop (S n) no_such_program_parent = lsh_loop n w').
Proof.
  assert (Hname : ~ In "frobnicate" builtin_str).
  { intros [H|[H|[H|[]]]]; discriminate H. }
  split.
  - destruct (C7_missing_executable_does_not_stop_the_loop
                no_such_program_child "frobnicate" ["-x"]
                (fun H : False => H) eq_refl Hname) as [H _].
    destruct (H [] (- ENOENT) [] eq_refl eq_refl eq_refl) as (w' & Hb & Ht).
    exists w'. split; assumption.
  - destruct (C7_missing_executable_does_not_stop_the_loop
                no_such_program_parent "frobnicate" ["-x"]
                (fun H : False => H) eq_refl Hname) as [_ H].
    destruct (H 900 [] [] eq_refl eq_refl eq_refl) as (w' & Hb & Hl & _).
    exists w'. split; assumption.
Defined.

(** ** The builtins *)

(** C6.  [cd] returns 1 in every case.  Without argument 1 it writes its
    usage error to the error stream and calls nothing else: no [chdir].
    With argument 1 it calls [chdir] on it; when [chdir] fails it reports
    the error of the operating system with [perror], when it succeeds it
    reports nothing. *)
Theorem C6_cd_reports_and_continues (args : argv) (w : world) :
  exists w',
    lsh_cd args w = Ret 1 w' /\
    (cell args 1 = None -> w' = eprintf cd_usage w) /\
    (forall path,
        cell args 1 = Some path ->
        (fst (chdir path w) = 0 -> w' = snd (chdir path w)) /\
        (fst (chdir path w) <> 0 -> w' = perror "lsh" (snd (chdir path w))) /\
        (forall rest,
            chdirs w = 0 :: rest ->
            trace w' = Chdir path 0 :: trace w /\ chdirs w' = rest) /\
        (forall r rest,
            chdirs w = r :: rest -> r < 0 ->
            trace w' = Perror "lsh" (- r) :: Chdir path (-1) :: trace w /\
            chdirs w' = rest)).
Proof.
  unfold lsh_cd. destruct (cell args 1) as [p|].
  - destruct (chdir p w) as [ret w1] eqn:Hc.
    exists (if negb (ret =? 0) then perror "lsh" w1 else w1). split.
    { destruct (negb (ret =? 0)); reflexivity. }
    split; [discriminate|].
    intros path [= <-]. rewrite Hc. cbn [fst snd]. repeat split.
    + intros ->. reflexivity.
    + intros Hret. apply Z.eqb_neq in Hret. rewrite Hret. reflexivity.
    + rewrite (chdir_answer p w 0 rest H) in Hc. injection Hc as <- <-. reflexivity.
    + rewrite (chdir_answer p w 0 rest H) in Hc. injection Hc as <- <-. reflexivity.
    + rewrite (chdir_answer p w r rest H) in Hc.
      apply Z.ltb_lt in H0. rewrite H0 in Hc. injection Hc as <- <-. reflexivity.
    + rewrite (chdir_answer p w r rest H) in Hc.
      apply Z.ltb_lt in H0. rewrite H0 in Hc. injection Hc as <- <-. reflexivity.
  - exists (eprintf cd_usage w). split; [reflexivity|].
    split; [reflexivity|discriminate].
Qed.

Lemma C6_witness :
  (exists w', lsh_cd [Some "cd"; None] (quiet "") = Ret 1 w' /\
              w' = eprintf cd_usage (quiet "")) /\
  (exists w', lsh_cd [Some "cd"; Some "/nowhere"; None] session = Ret 1 w' /\
              trace w' = [Perror "lsh" ENOENT; Chdir "/nowhere" (-1)]).
Proof.
  split.
  - destruct (C6_cd_reports_and_continues [Some "cd"; None] (quiet ""))
      as (w' & Hr & Hnone & _).
    exists w'. split; [exact Hr|exact (Hnone eq_refl)].
  - destruct (C6_cd_reports_and_continues [Some "cd"; Some "/nowhere"; None] session)
      as (w' & Hr & _ & Hsome).
    destruct (Hsome "/nowhere" eq_refl) as (_ & _ & _ & Hfail).
    destruct (Hfail (- ENOENT) [] eq_refl eq_refl) as [Ht _].
    exists w'. split; [exact Hr|exact Ht].
Defined.

(** C3.  [exit] does nothing but return 0; a cycle that gets 0 is the last
    one, whatever the cycles before it did; and [main] then returns
    [EXIT_SUCCESS], the only value it ever returns. *)
Theorem C3_exit_stops_the_loop_with_success :
  (forall args w, lsh_exit args w = Ret 0 w) /\
  (forall args w, cell args 0 = Some "exit" -> lsh_execute args w = Ret 0 w) /\
  (forall k n w w1 w',
      lsh_loop k w = Prompting w1 ->
      loop_body w1 = Ret 0 w' ->
      lsh_loop (k + S n) w = Ret tt w' /\
      main (k + S n) w = Ret EXIT_SUCCESS w') /\
  (forall n w code w', main n w = Ret code w' -> code = EXIT_SUCCESS) /\
  EXIT_SUCCESS = 0.
Proof.
  split; [reflexivity|]. split; [exact lsh_execute_exit|].
  split; [|split; [|reflexivity]].
  - intros k n w w1 w' Hrun Hstop.
    assert (Hloop : lsh_loop (k + S n) w = Ret tt w').
    { rewrite (lsh_loop_resume k (S n) w w1 Hrun).
      apply lsh_loop_stop. exact Hstop. }
    split; [exact Hloop|]. unfold main. rewrite Hloop. reflexivity.
  - intros n w code w'. unfold main.
    destruct (lsh_loop n w); simpl; try discriminate.
    intros [= <- _]. reflexivity.
Qed.

Lemma C3_witness :
  exists w', main 3 session = Ret EXIT_SUCCESS w' /\ stdin w' = "help" ++ nl.
Proof.
  destruct C3_exit_stops_the_loop_with_success as (_ & _ & H & _).
  eexists. split.
  - eapply proj2. eapply (H 2%nat 0%nat session); vm_compute; reflexivity.
  - reflexivity.
Defined.

(** C8.  The vector [lsh_split_line] returns always ends with the sentinel,
    the cells before it holding the tokens; for the empty line it is the
    sentinel alone.  ([lsh_split_line] returns unless an allocation fails,
    which ends the process.) *)
Theorem C8_vector_ends_with_the_sentinel (line : string) (w : world) :
  unless_out_of_memory w (lsh_split_line line w)
    (fun args _ => exists toks, args = (map Some toks ++ [None])%list) /\
  unless_out_of_memory w (lsh_split_line EmptyString w)
    (fun args _ => args = [None]) /\
  (memory_ok w ->
   (exists toks w', lsh_split_line line w = Ret (map Some toks ++ [None])%list w') /\
   yields (lsh_split_line EmptyString w) [None]).
Proof.
  assert (H1 : unless_out_of_memory w (lsh_split_line line w)
                 (fun args _ => exists toks, args = (map Some toks ++ [None])%list)).
  { eapply unless_out_of_memory_weaken; [|apply lsh_split_line_spec|].
    - auto.
    - intros args w' [-> _]. exists (spec_tokens line). reflexivity. }
  assert (H2 : unless_out_of_memory w (lsh_split_line EmptyString w)
                 (fun args _ => args = [None])).
  { eapply unless_out_of_memory_weaken; [|apply lsh_split_line_spec|].
    - auto.
    - intros args w' [-> _]. reflexivity. }
  split; [exact H1|]. split; [exact H2|].
  intros Hok. split.
  - destruct (unless_out_of_memory_ok _ _ _ H1 Hok) as (args & w' & Hr & toks & ->).
    eauto.
  - destruct (unless_out_of_memory_ok _ _ _ H2 Hok) as (args & w' & Hr & ->).
    exists w'. exact Hr.
Qed.

Lemma C8_witness :
  (exists toks w', lsh_split_line "ls -l" (quiet "") =
                   Ret (map Some toks ++ [None])%list w') /\
  yields (lsh_split_line EmptyString (quiet "")) [None].
Proof.
  destruct (C8_vector_ends_with_the_sentinel "ls -l" (quiet "")) as (_ & _ & H).
  exact (H (quiet_memory_ok _)).
Defined.

(** ** The tokenizer *)

Lemma blank_no_tokens (line : string) : blank line = true -> spec_tokens line = [].
Proof.
  unfold blank, spec_tokens. intros H.
  rewrite <- (append_empty_r (Libc.c_str line)).
  apply (spec_fields_lead _ EmptyString H).
Qed.

Lemma delim_not_nul (c : ascii) : is_delim c = true -> not_nul c = true.
Proof.
  intros H. apply is_delim_chars in H.
  destruct H as [->|[->|[->|[->| ->]]]]; reflexivity.
Qed.

Lemma c_str_app (a b : string) :
  all_chars not_nul a = true -> Libc.c_str (a ++ b) = a ++ Libc.c_str b.
Proof.
  induction a as [|c a IH]; intros H; [reflexivity|].
  simpl in H. apply andb_prop in H as [Hc H]. unfold not_nul in Hc.
  cbn [append Libc.c_str]. destruct (Ascii.eqb c char_nul); [discriminate|].
  rewrite IH by exact H. reflexivity.
Qed.

Lemma spec_tokens_lead (lead s : string) :
  all_chars is_delim lead = true -> spec_tokens (lead ++ s) = spec_tokens s.
Proof.
  intros H. unfold spec_tokens.
  rewrite c_str_app by (revert H; apply all_chars_weaken, delim_not_nul).
  apply spec_fields_lead, H.
Qed.

Lemma spec_tokens_token (t : string) (d : ascii) (rest : string) :
  token_ok t = true -> is_delim d = true ->
  spec_tokens (t ++ String d rest) = t :: spec_tokens rest.
Proof.
  intros Ht Hd. unfold spec_tokens.
  rewrite c_str_app by (apply token_no_nul, Ht).
  cbn [Libc.c_str]. pose proof (delim_not_nul d Hd) as Hn. unfold not_nul in Hn.
  destruct (Ascii.eqb d char_nul); [discriminate|].
  apply spec_fields_token; assumption.
Qed.

Lemma spec_tokens_last (t : string) : token_ok t = true -> spec_tokens t = [t].
Proof.
  intros Ht. unfold spec_tokens.
  rewrite (token_is_c_string t Ht). apply spec_fields_last, Ht.
Qed.

(** C2.  A line that is empty or made of whitespace only (the delimiters of
    the tokenizer) gives the vector whose first cell is NULL; on it
    [lsh_execute] returns 1 in the world it was given, which no builtin and
    not the launcher would do; and the cycle that reads such a line is
    followed by the next cycle. *)
Theorem C2_blank_line_is_skipped (line : string) (w : world) :
  blank line = true -> memory_ok w ->
  (exists w1, lsh_split_line line w = Ret [None] w1 /\ allocated w w1) /\
  cell [None] 0 = None /\
  (forall w1,
      lsh_execute [None] w1 = Ret 1 w1 /\
      (forall handler, In handler builtin_func -> handler [None] w1 <> Ret 1 w1) /\
      lsh_launch [None] w1 <> Ret 1 w1) /\
  (line_of (stdin w) = line ->
   exists w2,
     loop_body w = Ret 1 w2 /\
     allocated (set_stdin (after_line (stdin w)) (printf "> " w)) w2 /\
     forall n, lsh_loop (S n) w = lsh_loop n w2).
Proof.
  intros Hblank Hok. split; [|split; [reflexivity|split]].
  - destruct (lsh_split_line_yields line w Hok) as (w1 & Hs & Hw1).
    rewrite (blank_no_tokens line Hblank) in Hs. eauto.
  - intros w1. split; [reflexivity|]. split; [|apply lsh_launch_marks].
    intros handler [<-|[<-|[<-|[]]]].
    + apply lsh_cd_marks.
    + apply lsh_help_marks.
    + apply lsh_exit_marks.
  - intros Hline.
    destruct (loop_body_reads w Hok) as (w2 & Hw2 & Hbody).
    rewrite Hline, (blank_no_tokens line Hblank) in Hbody.
    change (lsh_execute (vector []) w2) with (Ret (A := Z) 1 w2) in Hbody.
    exists w2. split; [exact Hbody|]. split; [exact Hw2|].
    intros n. apply (lsh_loop_continue n w w2 1 Hbody). lia.
Qed.

Lemma C2_witness :
  exists w2,
    loop_body blank_then_exit = Ret 1 w2 /\
    forall n, lsh_loop (S n) blank_then_exit = lsh_loop n w2.
Proof.
  destruct (C2_blank_line_is_skipped blank_line blank_then_exit eq_refl
              (quiet_memory_ok _)) as (_ & _ & _ & H).
  destruct (H eq_refl) as (w2 & Hbody & _ & Hloop).
  exists w2. split; assumption.
Defined.

(** C5.  The tokenizer splits on runs of the five delimiters (space, tab,
    carriage return, newline, bell): delimiters before a token are dropped,
    a token ends at the first delimiter after it or at the end of the line,
    and what follows is split in the same way.  So ["a b"] and
    ["  a   b  "] both give [a], [b] and the sentinel; the vector is the one
    the specification describes; and the tokens of a line, joined by single
    spaces, split into the same vector again. *)
Theorem C5_tokenizer_splits_on_delimiter_runs (w : world) :
  memory_ok w ->
  (forall c, is_delim c = true <->
             c = char_space \/ c = char_tab \/ c = char_cr \/ c = char_nl \/
             c = char_bell) /\
  yields (lsh_split_line "a b" w) [Some "a"; Some "b"; None] /\
  yields (lsh_split_line "  a   b  " w) [Some "a"; Some "b"; None] /\
  (forall line, yields (lsh_split_line line w) (vector (spec_tokens line))) /\
  (forall lead, all_chars is_delim lead = true ->
                yields (lsh_split_line lead w) [None]) /\
  (forall lead t,
      all_chars is_delim lead = true -> token_ok t = true ->
      yields (lsh_split_line (lead ++ t) w) [Some t; None]) /\
  (forall lead t d rest args,
      all_chars is_delim lead = true -> token_ok t = true -> is_delim d = true ->
      yields (lsh_split_line rest w) args ->
      yields (lsh_split_line (lead ++ t ++ String d rest) w) (Some t :: args)) /\
  (forall line args,
      yields (lsh_split_line line w) args ->
      yields (lsh_split_line (join (strings_of args)) w) args).
Proof.
  intros Hok.
  assert (Hsplit : forall line, yields (lsh_split_line line w) (vector (spec_tokens line))).
  { intros line. destruct (lsh_split_line_yields line w Hok) as (w' & H & _).
    exists w'. exact H. }
  assert (Hfun : forall line args,
             yields (lsh_split_line line w) args -> args = vector (spec_tokens line)).
  { intros line args [w1 H1]. destruct (Hsplit line) as [w2 H2].
    rewrite H1 in H2. injection H2 as -> _. reflexivity. }
  split; [exact is_delim_chars|].
  split; [exact (Hsplit "a b")|].
  split; [exact (Hsplit "  a   b  ")|].
  split; [exact Hsplit|].
  split; [|split; [|split]].
  - intros lead Hlead.
    rewrite <- (append_empty_r lead).
    pose proof (Hsplit (lead ++ "")) as H.
    rewrite (spec_tokens_lead lead "" Hlead) in H. exact H.
  - intros lead t Hlead Ht.
    pose proof (Hsplit (lead ++ t)) as H.
    rewrite (spec_tokens_lead lead t Hlead), (spec_tokens_last t Ht) in H. exact H.
  - intros lead t d rest args Hlead Ht Hd Hrest.
    pose proof (Hsplit (lead ++ t ++ String d rest)) as H.
    rewrite (spec_tokens_lead lead _ Hlead), (spec_tokens_token t d rest Ht Hd) in H.
    rewrite (Hfun rest args Hrest). exact H.
  - intros line args Hline.
    rewrite (Hfun line args Hline), strings_of_vector.
    pose proof (Hsplit (join (spec_tokens line))) as H.
    rewrite (spec_tokens_join _ (spec_tokens_ok line)) in H. exact H.
Qed.

Lemma C5_witness :
  yields (lsh_split_line "a b" (quiet "")) [Some "a"; Some "b"; None] /\
  yields (lsh_split_line "  a   b  " (quiet "")) [Some "a"; Some "b"; None].
Proof.
  destruct (C5_tokenizer_splits_on_delimiter_runs (quiet "") (quiet_memory_ok _))
    as (_ & Ha & Hb & _).
  split; assumption.
Defined.

(** ** The loop and the end of input *)

Lemma line_without_newline (chars : string) :
  all_chars not_nl chars = true ->
  line_of chars = chars /\ after_line chars = EmptyString.
Proof.
  induction chars as [|c chars IH]; intros H; [auto|].
  simpl in H. apply andb_prop in H as [Hc H]. unfold not_nl in Hc.
  cbn [line_of after_line]. destruct (Ascii.eqb c char_nl); [discriminate|].
  destruct (IH H) as [-> ->]. auto.
Qed.

Lemma line_before_newline (chars rest : string) :
  all_chars not_nl chars = true ->
  line_of (chars ++ String char_nl rest) = chars /\
  after_line (chars ++ String char_nl rest) = rest.
Proof.
  induction chars as [|c chars IH]; intros H; [auto|].
  simpl in H. apply andb_prop in H as [Hc H]. unfold not_nl in Hc.
  cbn [append line_of after_line]. destruct (Ascii.eqb c char_nl); [discriminate|].
  destruct (IH H) as [-> ->]. auto.
Qed.

Lemma lsh_read_line_yields (w : world) :
  memory_ok w ->
  exists w', lsh_read_line w = Ret (line_of (stdin w) ++ terminator) w' /\
             allocated (set_stdin (after_line (stdin w)) w) w'.
Proof.
  intros Hok.
  destruct (unless_out_of_memory_ok _ _ _ (lsh_read_line_spec w) Hok)
    as (mem & w' & H & -> & Hw').
  eauto.
Qed.

Lemma lsh_launch_returns_1 (args : argv) (w : world) (v : Z) (w' : world) :
  lsh_launch args w = Ret v w' -> v = 1.
Proof.
  destruct (Z.eq_dec (fst (fork w)) 0) as [Hchild|Hparent].
  - unfold lsh_launch. destruct (fork w) as [p w1]. simpl in Hchild. subst p.
    change (0 =? 0) with true. cbv iota.
    destruct (execvp (cell args 0) args w1) as [w2|[r w2]]; discriminate.
  - pose proof (lsh_launch_parent_outcomes args w Hparent) as Hout.
    intros H. rewrite H in Hout. exact Hout.
Qed.

(** Every dispatch path returns 1, but [exit], which returns 0. *)
Lemma lsh_execute_status (args : argv) (w : world) (v : Z) (w' : world) :
  lsh_execute args w = Ret v w' ->
  v = 1 \/
  (v = 0 /\ w' = w /\
   exists name, cell args 0 = Some name /\ Libc.c_str name = "exit").
Proof.
  rewrite lsh_execute_dispatch.
  destruct (cell args 0) as [name|]; [|intros [= <- _]; auto].
  destruct (String.eqb (Libc.c_str name) "cd").
  { destruct (lsh_cd_returns args w) as [w1 ->]. intros [= <- _]. auto. }
  destruct (String.eqb (Libc.c_str name) "help").
  { intros [= <- _]. auto. }
  destruct (String.eqb (Libc.c_str name) "exit") eqn:E.
  { intros [= <- <-]. right. apply String.eqb_eq in E. eauto. }
  intros H. left. eapply lsh_launch_returns_1. exact H.
Qed.

(** A cycle that gives 0 has read a line whose first token is [exit]. *)
Lemma loop_body_stop (w0 w' : world) :
  loop_body w0 = Ret 0 w' ->
  exists line w1 args w2,
    lsh_read_line (printf "> " w0) = Ret line w1 /\
    lsh_split_line line w1 = Ret args w2 /\
    cell args 0 = Some "exit" /\
    lsh_execute args w2 = Ret 0 w'.
Proof.
  unfold loop_body.
  destruct (lsh_read_line (printf "> " w0)) as [line w1| | | | |] eqn:Hread;
    try discriminate.
  cbn [bind].
  pose proof (lsh_split_line_spec line w1) as Hs.
  destruct (lsh_split_line line w1) as [args w2| | | | |] eqn:Hsplit;
    try discriminate.
  cbn [bind]. simpl in Hs. destruct Hs as [Hargs _].
  intros Hexec. exists line, w1, args, w2.
  split; [reflexivity || exact Hread|]. split; [exact Hsplit|]. split; [|exact Hexec].
  destruct (lsh_execute_status _ _ _ _ Hexec) as [H|(_ & _ & name & Hname & Hexit)];
    [discriminate|].
  pose proof (spec_tokens_ok line) as Hall.
  rewrite Hargs in Hname |- *.
  destruct (spec_tokens line) as [|t toks]; [discriminate|].
  rewrite vector_head in *. injection Hname as ->.
  inversion Hall as [|? ? Ht _]; subst.
  rewrite (token_is_c_string name Ht) in Hexit. rewrite Hexit. reflexivity.
Qed.

(** A loop that ends has run some cycles that gave a status other than 0,
    then one that gave 0. *)
Lemma lsh_loop_returns (n : nat) :
  forall w w',
    lsh_loop n w = Ret tt w' ->
    exists k w0, (k < n)%nat /\ lsh_loop k w = Prompting w0 /\ loop_body w0 = Ret 0 w'.
Proof.
  induction n as [|n IH]; intros w w' H; [discriminate|].
  rewrite lsh_loop_step in H.
  destruct (loop_body w) as [status w1| | | | |] eqn:Hbody; try discriminate.
  cbn [bind] in H. destruct (status =? 0) eqn:E.
  - apply Z.eqb_eq in E. subst status. injection H as <-.
    exists O, w. repeat split; [lia|exact Hbody].
  - cbn [negb] in H. destruct (IH w1 w' H) as (k & w0 & Hk & Hrun & Hstop).
    exists (S k), w0. repeat split; [lia| |exact Hstop].
    rewrite (lsh_loop_continue k w w1 status Hbody); [exact Hrun|].
    apply Z.eqb_neq. exact E.
Qed.

Lemma repeat_snoc {A : Type} (x : A) (n : nat) (l : list A) :
  (repeat x n ++ x :: l = repeat x (S n) ++ l)%list.
Proof.
  induction n as [|n IH]; [reflexivity|].
  cbn [repeat app] in *. rewrite IH. reflexivity.
Qed.

(** At the end of the input the loop prompts for ever. *)
Lemma eof_prompts_for_ever (n : nat) :
  forall w,
    memory_ok w -> stdin w = EmptyString ->
    exists w',
      lsh_loop n w = Prompting w' /\ stdin w' = EmptyString /\
      trace w' = (repeat (Printf "> ") n ++ trace w)%list.
Proof.
  induction n as [|n IH]; intros w Hok Hin; [exists w; auto|].
  destruct (loop_body_reads w Hok) as (w2 & Hw2 & Hbody).
  rewrite Hin in *.
  change (lsh_execute (vector (spec_tokens (line_of ""))) w2)
    with (Ret (A := Z) 1 w2) in Hbody.
  destruct (allocated_fields _ _ Hw2) as (Hin2 & _ & _ & _ & _ & _ & Htrace2).
  assert (Hok2 : memory_ok w2) by (eapply allocated_memory_ok; [exact Hw2|exact Hok]).
  destruct (IH w2 Hok2 Hin2) as (w' & Hrun & Hin' & Htrace').
  exists w'. split; [|split; [exact Hin'|]].
  - rewrite (lsh_loop_continue n w w2 1 Hbody) by lia. exact Hrun.
  - rewrite Htrace', Htrace2. apply repeat_snoc.
Qed.

(** C9.  The end of the input does not end the interpreter: [lsh_read_line]
    returns the characters read before it, none included, and once the
    input is used up every cycle reads the empty line and prompts again,
    for ever.  Every dispatch path returns 1 but [exit], so a loop that
    ends has run cycles that went on, then one whose line had [exit] as its
    first token.  (The process can also end inside a cycle: when an
    allocation fails, and in the child of a [fork].) *)
Theorem C9_only_exit_ends_the_loop :
  (forall w,
      memory_ok w -> all_chars not_nl (stdin w) = true ->
      exists w', lsh_read_line w = Ret (stdin w ++ terminator) w' /\
                 stdin w' = EmptyString) /\
  (forall n w,
      memory_ok w -> stdin w = EmptyString ->
      exists w', lsh_loop n w = Prompting w' /\ stdin w' = EmptyString /\
                 trace w' = (repeat (Printf "> ") n ++ trace w)%list) /\
  (forall args w v w',
      lsh_execute args w = Ret v w' ->
      v = 1 \/
      (v = 0 /\ exists name, cell args 0 = Some name /\ Libc.strcmp name "exit" = 0)) /\
  (forall n w w',
      lsh_loop n w = Ret tt w' ->
      exists k w0 line w1 args w2,
        (k < n)%nat /\ lsh_loop k w = Prompting w0 /\
        lsh_read_line (printf "> " w0) = Ret line w1 /\
        lsh_split_line line w1 = Ret args w2 /\
        cell args 0 = Some "exit" /\
        lsh_execute args w2 = Ret 0 w').
Proof.
  split; [|split; [|split]].
  - intros w Hok Hnl.
    destruct (lsh_read_line_yields w Hok) as (w' & Hr & Hw').
    destruct (line_without_newline _ Hnl) as [Hline Hafter].
    rewrite Hline in Hr. rewrite Hafter in Hw'.
    exists w'. split; [exact Hr|].
    destruct (allocated_fields _ _ Hw') as (Hin & _). exact Hin.
  - intros n w. apply eof_prompts_for_ever.
  - intros args w v w' H.
    destruct (lsh_execute_status _ _ _ _ H) as [Hv|(Hv & _ & name & Hname & Hexit)];
      [left; exact Hv|right].
    split; [exact Hv|]. exists name. split; [exact Hname|].
    apply Z.eqb_eq. rewrite strcmp_eqb, Hexit. reflexivity.
  - intros n w w' H.
    destruct (lsh_loop_returns n w w' H) as (k & w0 & Hk & Hrun & Hstop).
    destruct (loop_body_stop w0 w' Hstop) as (line & w1 & args & w2 & Hr & Hs & Ha & He).
    exists k, w0, line, w1, args, w2. auto 10.
Qed.

Lemma C9_witness :
  (exists w', lsh_loop 5 (quiet "") = Prompting w' /\
              trace w' = repeat (Printf "> ") 5) /\
  (exists k w0 line w1 args w2,
      (k < 3)%nat /\ lsh_loop k session = Prompting w0 /\
      lsh_read_line (printf "> " w0) = Ret line w1 /\
      lsh_split_line line w1 = Ret args w2 /\
      cell args 0 = Some "exit").
Proof.
  destruct C9_only_exit_ends_the_loop as (_ & Heof & _ & Hexit).
  split.
  - destruct (Heof 5%nat (quiet "") (quiet_memory_ok _) eq_refl) as (w' & Hr & _ & Ht).
    exists w'. split; [exact Hr|exact Ht].
  - assert (Hrun : exists w', lsh_loop 3 session = Ret tt w')
      by (eexists; vm_compute; reflexivity).
    destruct Hrun as [w' Hrun].
    destruct (Hexit 3%nat session w' Hrun)
      as (k & w0 & line & w1 & args & w2 & Hk & H0 & H1 & H2 & H3 & _).
    exists k, w0, line, w1, args, w2. repeat split; assumption.
Defined.

(** C10.  When the input ends after some characters of a line, without a
    newline, [lsh_read_line] returns those characters followed by the
    terminator, the same memory it returns when a newline follows them; the
    cycle then runs as it does with the newline, the unread input apart.
    The input [exit] without a newline ends the interpreter with
    [EXIT_SUCCESS]. *)
Theorem C10_last_line_without_newline (chars rest : string) (w : world) :
  all_chars not_nl chars = true ->
  (memory_ok w ->
   exists w1 w2,
     lsh_read_line (set_stdin chars w) = Ret (chars ++ terminator) w1 /\
     lsh_read_line (set_stdin (chars ++ String char_nl rest) w) =
       Ret (chars ++ terminator) w2 /\
     stdin w1 = EmptyString /\ stdin w2 = rest /\
     w1 = set_stdin EmptyString w2) /\
  but_stdin (loop_body (set_stdin chars w)) =
  but_stdin (loop_body (set_stdin (chars ++ String char_nl rest) w)) /\
  (memory_ok w ->
   forall n, yields (main (S n) (set_stdin "exit" w)) EXIT_SUCCESS).
Proof.
  intros Hnl. split; [|split].
  - intros Hok.
    destruct (lsh_read_line_yields (set_stdin chars w) Hok) as (w1 & Hr1 & Hw1).
    destruct (lsh_read_line_yields (set_stdin (chars ++ String char_nl rest) w) Hok)
      as (w2 & Hr2 & Hw2).
    cbn [stdin set_stdin] in Hr1, Hr2, Hw1, Hw2.
    destruct (line_without_newline _ Hnl) as [Hl1 Ha1].
    destruct (line_before_newline chars rest Hnl) as [Hl2 Ha2].
    rewrite Hl1 in Hr1. rewrite Hl2 in Hr2. rewrite Ha1 in Hw1. rewrite Ha2 in Hw2.
    destruct (allocated_fields _ _ Hw1) as (Hin1 & _).
    destruct (allocated_fields _ _ Hw2) as (Hin2 & _).
    exists w1, w2. repeat split; try assumption.
    pose proof (lsh_read_line_eof_newline chars rest w Hnl) as Heq.
    rewrite Hr1, Hr2 in Heq. apply (f_equal final) in Heq.
    unfold but_stdin in Heq. cbn [in_world final] in Heq.
    cbn [stdin set_stdin] in Hin1.
    rewrite <- Heq. destruct w1; simpl in *; subst; reflexivity.
  - apply loop_body_eof_newline. exact Hnl.
  - intros Hok n.
    destruct (loop_body_reads (set_stdin "exit" w) Hok) as (w2 & Hw2 & Hbody).
    cbn [stdin set_stdin] in Hbody.
    change (lsh_execute (vector (spec_tokens (line_of "exit"))) w2)
      with (Ret (A := Z) 0 w2) in Hbody.
    exists w2. unfold main. rewrite (lsh_loop_stop n _ w2 Hbody). reflexivity.
Qed.

Lemma C10_witness :
  but_stdin (loop_body (set_stdin "exit" (quiet ""))) =
  but_stdin (loop_body (set_stdin ("exit" ++ nl ++ "help" ++ nl) (quiet ""))) /\
  yields (main 1 (set_stdin "exit" (quiet ""))) EXIT_SUCCESS.
Proof.
  destruct (C10_last_line_without_newline "exit" ("help" ++ nl) (quiet "") eq_refl)
    as (_ & Hsame & Hexit).
  split; [exact Hsame|exact (Hexit (quiet_memory_ok _) 0%nat)].
Defined.

(** * Further properties *)

(** ** The buffers stay within their blocks *)

Section Blocks.

Context {A : Type}.

Lemma store_at_end (pre : block A) (c : option A) (rest : block A) (x : A) :
  store_at (List.length pre) x (pre ++ c :: rest)%list =
  Some (pre ++ Some x :: rest)%list.
Proof.
  induction pre as [|p pre IH]; [reflexivity|].
  simpl. rewrite IH. reflexivity.
Qed.

(** Storing at [position] fills the first free cell. *)
Lemma store_next (cells : list A) (k : nat) (x : A) :
  store (map Some cells ++ repeat None (S k))%list (Z.of_nat (List.length cells)) x =
  Some (map Some (cells ++ [x]) ++ repeat None k)%list.
Proof.
  unfold store.
  destruct (Z.of_nat (List.length cells) <? 0) eqn:E; [apply Z.ltb_lt in E; lia|].
  rewrite Nat2Z.id. cbn [repeat].
  rewrite <- (length_map Some cells) at 1.
  rewrite store_at_end, map_app, <- app_assoc. reflexivity.
Qed.

(** Enlarging a full block adds free cells after its cells. *)
Lemma realloc_full (cells : list A) (n : Z) :
  (List.length cells <= Z.to_nat n)%nat ->
  realloc_block (map Some cells) n =
  (map Some cells ++ repeat None (Z.to_nat n - List.length cells))%list.
Proof.
  intros Hn. unfold realloc_block. rewrite length_map.
  apply firstn_all2. rewrite length_app, length_map, repeat_length. lia.
Qed.

End Blocks.

Section ReadLineBlock.







End ReadLineBlock.

Lemma same_outcome_refine {A B : Type} (R R' : A -> B -> Prop)
  (m : outcome A) (m' : outcome B) :
  same_outcome R m m' ->
  (forall a b w, m' = Ret b w -> R a b -> R' a b) ->
  same_outcome R' m m'.
Proof.
  destruct m, m'; simpl; try tauto.
  intros [HR ->] H. split; [|reflexivity]. eapply H; [reflexivity|exact HR].
Qed.


Section SplitLineBlock.

Lemma split_loop_block_step (t save : string) (tokens : block (option string))
  (position bufsize : Z) (w : world) :
  split_loop_block (Some t) save tokens position bufsize w =
  let (token', save') := Libc.strtok None LSH_TOK_DELIM save in
  match store tokens position (Some t) with
  | None => None
  | Some stored =>
      let position := position + 1 in
      if position >=? bufsize then
        let (ok, w1) := alloc w in
        if negb ok then Some (allocation_error w1)
        else split_loop_block token' save'
               (realloc_block stored (bufsize + LSH_TOK_BUFSIZE))
               position (bufsize + LSH_TOK_BUFSIZE) w1
      else split_loop_block token' save' stored position bufsize w
  end.
Proof.
  funelim (split_loop_block (Some t) save tokens position bufsize w).
  all: rewrite Hnext; cbn zeta.
  all: try rewrite Heq1; try rewrite Heq0; try rewrite Heq; reflexivity.
Qed.

Lemma store_cell (cells : argv) (k : nat) (position : Z) (x : option string) :
  position = Z.of_nat (List.length cells) ->
  store (map Some cells ++ repeat None (S k))%list position x =
  Some (map Some (cells ++ [x]) ++ repeat None k)%list.
Proof. intros ->. apply store_next. Qed.

(** The invariant of the loop: [position] cells stored, at least one free
    cell after them, [bufsize] cells in all. *)
Lemma split_loop_block_refines (token : option string) (save : string)
  (stored : argv) (position bufsize : Z) (w : world) :
  forall k,
    position = Z.of_nat (List.length stored) ->
    bufsize = position + Z.of_nat (S k) ->
    exists r,
      split_loop_block token save (map Some stored ++ repeat None (S k))%list
                       position bufsize w = Some r /\
      same_outcome (fun blk args => holds blk args)
                   r (split_loop token save stored position bufsize w).
Proof.
  funelim (split_loop token save stored position bufsize w);
    intros k Hpos Hsize.
  - simp split_loop_block. rewrite (store_cell tokens k position None Hpos).
    eexists. split; [reflexivity|]. split; [|reflexivity]. exists k. reflexivity.
  - rewrite split_loop_block_step, Hnext, (store_cell tokens k position (Some t) Hpos).
    cbn zeta. rewrite Heq.
    assert (Hk : exists k', k = S k') by
      (destruct k; [rewrite Z.geb_leb in Heq; apply Z.leb_gt in Heq; lia|eauto]).
    destruct Hk as [k' ->].
    apply H; [rewrite length_app; simpl; lia|lia].
  - rewrite split_loop_block_step, Hnext, (store_cell tokens k position (Some t) Hpos).
    cbn zeta. rewrite Heq0, Heq. cbn [negb].
    assert (k = O) by (apply Z.geb_le in Heq0; lia). subst k.
    cbn [repeat]. rewrite app_nil_r, realloc_full.
    2:{ rewrite length_app. simpl. unfold LSH_TOK_BUFSIZE. lia. }
    assert (Hfree : (Z.to_nat (bufsize + LSH_TOK_BUFSIZE) -
                     List.length (tokens ++ [Some t]))%nat = S 63).
    { rewrite length_app. simpl. unfold LSH_TOK_BUFSIZE. lia. }
    rewrite Hfree.
    apply H; [rewrite length_app; simpl; lia|unfold LSH_TOK_BUFSIZE; lia].
  - rewrite split_loop_block_step, Hnext, (store_cell tokens k position (Some t) Hpos).
    cbn zeta. rewrite Heq0, Heq. cbn [negb].
    eexists. split; [reflexivity|]. split; reflexivity.
Qed.

Lemma block_vector_holds (toks : list string) (rest : block (option string)) :
  block_vector (map Some (vector toks) ++ rest)%list = Some (vector toks).
Proof.
  induction toks as [|t toks IH]; [reflexivity|].
  unfold vector in *. cbn [map app block_vector]. rewrite IH. reflexivity.
Qed.

End SplitLineBlock.

(** X2.  [lsh_split_line] never stores outside its array of pointers: every
    store of a token and the final store of the sentinel fall inside the
    block, however many tokens the line has.  The run ends as the one of
    [lsh_split_line] does, and the block returned holds the tokens, then
    the NULL cell. *)
Theorem X2_split_line_stays_in_its_array (line : string) (w : world) :
  exists r,
    lsh_split_line_block line w = Some r /\
    same_outcome
      (fun blk args =>
         holds blk args /\ block_vector blk = Some args /\
         args = vector (spec_tokens line))
      r (lsh_split_line line w).
Proof.
  pose proof (lsh_split_line_spec line w) as Hspec.
  unfold lsh_split_line_block, lsh_split_line in *.
  destruct (alloc w) as [[|] w1]; cbn [negb] in *.
  - destruct (Libc.strtok (Some line) LSH_TOK_DELIM "") as [token save].
    destruct (split_loop_block_refines token save [] 0 LSH_TOK_BUFSIZE w1 63
                eq_refl eq_refl) as (r & Hr & Hsame).
    exists r. split; [exact Hr|].
    eapply same_outcome_refine; [exact Hsame|].
    intros blk args w' Hret Hholds. rewrite Hret in Hspec. destruct Hspec as [-> _].
    split; [exact Hholds|]. split; [|reflexivity].
    destruct Hholds as [spare ->]. apply block_vector_holds.
  - eexists. split; [reflexivity|]. split; reflexivity.
Qed.

(** ** More on the tokenizer *)

Section MoreTokens.

Lemma lsh_split_line_returns (line : string) (w : world) (args : argv) (w' : world) :
  lsh_split_line line w = Ret args w' ->
  args = vector (spec_tokens line) /\ allocated w w'.
Proof.
  intros H. pose proof (lsh_split_line_spec line w) as Hspec.
  rewrite H in Hspec. exact Hspec.
Qed.

Lemma concat_cons_word (word : string) (l : list string) :
  concat_strings (cons_word word l) = word ++ concat_strings l.
Proof.
  unfold cons_word. destruct (String.eqb word EmptyString) eqn:E; [|reflexivity].
  apply String.eqb_eq in E. subst word. reflexivity.
Qed.

Lemma concat_spec_fields (s : string) :
  forall word, concat_strings (spec_fields s word) = word ++ strip_delims s.
Proof.
  induction s as [|c s IH]; intros word.
  - change (spec_fields "" word) with (cons_word word []).
    rewrite concat_cons_word. reflexivity.
  - rewrite spec_fields_cons. cbn [strip_delims].
    destruct (is_delim c).
    + rewrite concat_cons_word, IH. reflexivity.
    + rewrite IH, append_snoc. reflexivity.
Qed.

Lemma spec_fields_nil (s : string) :
  forall word,
    spec_fields s word = [] -> word = EmptyString /\ all_chars is_delim s = true.
Proof.
  assert (Hclose : forall word l, cons_word word l = [] -> word = EmptyString /\ l = []).
  { intros word l. unfold cons_word.
    destruct (String.eqb word EmptyString) eqn:E; [|discriminate].
    apply String.eqb_eq in E. auto. }
  induction s as [|c s IH]; intros word H.
  - apply Hclose in H as [-> _]. auto.
  - rewrite spec_fields_cons in H. cbn [all_chars].
    destruct (is_delim c).
    + apply Hclose in H as [-> H]. apply IH in H as [_ ->]. auto.
    + apply IH in H as [H _]. apply append_is_empty in H as [_ H]. discriminate.
Qed.

End MoreTokens.

(** X3.  Every token [lsh_split_line] returns is well formed: it is not
    empty and holds neither a delimiter nor a NUL. *)
Theorem X3_tokens_are_well_formed
  (line : string) (w : world) (args : argv) (w' : world) :
  lsh_split_line line w = Ret args w' ->
  forall t, In (Some t) args ->
            t <> EmptyString /\
            all_chars (fun c => negb (is_delim c) && negb (Ascii.eqb c char_nul)) t = true.
Proof.
  intros H t Hin. apply lsh_split_line_returns in H as [-> _].
  unfold vector in Hin. apply in_app_or in Hin as [Hin|[Hin|[]]]; [|discriminate].
  apply in_map_iff in Hin as (t' & [= ->] & Hin).
  pose proof (spec_tokens_ok line) as Hall.
  rewrite Forall_forall in Hall. apply token_ok_inv. apply Hall, Hin.
Qed.

Lemma X3_witness :
  "-l" <> EmptyString /\
  all_chars (fun c => negb (is_delim c) && negb (Ascii.eqb c char_nul)) "-l" = true.
Proof.
  apply (X3_tokens_are_well_formed " ls  -l " (quiet "")
           [Some "ls"; Some "-l"; None] (quiet "") eq_refl "-l").
  simpl. auto.
Defined.

(** X4.  The tokenizer neither loses nor invents a character: the tokens
    of a line, one after the other, are the characters of the line before
    its first NUL that are no delimiters, in their order. *)
Theorem X4_tokens_keep_the_characters
  (line : string) (w : world) (args : argv) (w' : world) :
  lsh_split_line line w = Ret args w' ->
  concat_strings (strings_of args) = strip_delims (Libc.c_str line).
Proof.
  intros H. apply lsh_split_line_returns in H as [-> _].
  rewrite strings_of_vector. unfold spec_tokens.
  apply (concat_spec_fields _ EmptyString).
Qed.

Lemma X4_witness :
  concat_strings (strings_of [Some "ls"; Some "-l"; None]) =
  strip_delims (Libc.c_str (" ls  -l " ++ terminator ++ "x")).
Proof.
  apply (X4_tokens_keep_the_characters (" ls  -l " ++ terminator ++ "x") (quiet "")
           [Some "ls"; Some "-l"; None] (quiet "") eq_refl).
Defined.

(** X5.  The first cell of the vector is NULL exactly for a line that is
    empty or made of delimiters only: any other character before the first
    NUL of the line gives a command to dispatch. *)
Theorem X5_first_cell_null_iff_blank
  (line : string) (w : world) (args : argv) (w' : world) :
  lsh_split_line line w = Ret args w' ->
  (cell args 0 = None <-> blank line = true).
Proof.
  intros H. apply lsh_split_line_returns in H as [-> _]. split.
  - intros Hcell. unfold blank.
    destruct (spec_tokens line) as [|t toks] eqn:E; [|discriminate].
    apply (spec_fields_nil _ EmptyString E).
  - intros Hblank. rewrite (blank_no_tokens line Hblank). reflexivity.
Qed.

Lemma X5_witness :
  cell [Some "x"; None] 0 = None <-> blank (blank_line ++ "x") = true.
Proof.
  apply (X5_first_cell_null_iff_blank (blank_line ++ "x") (quiet "")
           [Some "x"; None] (quiet "") eq_refl).
Defined.

(** ** More on the builtins and the dispatch *)

(** X6.  Dispatch is by exact match of the first token (as a C string)
    against [builtin_str]: a name equal to entry [i] of the table runs
    entry [i] of [builtin_func] with the whole vector, and any other name,
    such as a builtin name in other case or with a character more, goes to
    the launcher. *)
Theorem X6_dispatch_is_by_exact_name (args : argv) (name : string) (w : world) :
  cell args 0 = Some name ->
  (forall i,
      (i < lsh_num_builtins)%nat ->
      Libc.c_str name = nth i builtin_str EmptyString ->
      lsh_execute args w = nth i builtin_func (fun _ w => Undefined w) args w) /\
  (~ In (Libc.c_str name) builtin_str -> lsh_execute args w = lsh_launch args w).
Proof.
  intros Hname. split; [|apply lsh_execute_external; exact Hname].
  intros i Hi Hi_name. rewrite lsh_execute_dispatch, Hname, Hi_name.
  destruct i as [|[|[|i]]]; [reflexivity|reflexivity|reflexivity|].
  unfold lsh_num_builtins in Hi. simpl in Hi. lia.
Qed.

Lemma X6_witness :
  lsh_execute [Some "CD"; Some "/tmp"; None] (quiet "") =
  lsh_launch [Some "CD"; Some "/tmp"; None] (quiet "") /\
  lsh_execute [Some "exit"; Some "3"; None] (quiet "") =
  lsh_exit [Some "exit"; Some "3"; None] (quiet "").
Proof.
  split.
  - destruct (X6_dispatch_is_by_exact_name [Some "CD"; Some "/tmp"; None] "CD"
                (quiet "") eq_refl) as [_ H].
    apply H. intros [H0|[H0|[H0|[]]]]; discriminate H0.
  - destruct (X6_dispatch_is_by_exact_name [Some "exit"; Some "3"; None] "exit"
                (quiet "") eq_refl) as [H _].
    apply (H 2%nat); [unfold lsh_num_builtins; simpl; lia|reflexivity].
Defined.

Section Help.

Lemma string_length_app (a b : string) :
  String.length (a ++ b) = (String.length a + String.length b)%nat.
Proof. induction a as [|x a IH]; simpl; congruence. Qed.

Lemma append_cancel_r (a b c : string) : a ++ c = b ++ c -> a = b.
Proof.
  revert b. induction a as [|x a IH]; intros [|y b] H.
  - reflexivity.
  - exfalso. apply (f_equal String.length) in H. simpl in H.
    rewrite string_length_app in H. lia.
  - exfalso. apply (f_equal String.length) in H. simpl in H.
    rewrite string_length_app in H. lia.
  - simpl in H. injection H as -> H. f_equal. apply IH, H.
Qed.

Lemma help_line_inj (a b : string) :
  Printf ("  " ++ a ++ nl) = Printf ("  " ++ b ++ nl) -> a = b.
Proof.
  intros [= H]. apply append_cancel_r in H. exact H.
Qed.

End Help.

(** X7.  [help] prints its three heading lines, then one line per builtin
    name in the order of the table, then its closing line; the names it
    lists are exactly the entries of [builtin_str], the table the dispatch
    matches against.  It returns 1 and does nothing else, whatever its
    arguments. *)
Theorem X7_help_lists_the_builtins (args : argv) (w : world) :
  let heading :=
    [Printf ("My own LSH." ++ nl);
     Printf ("Type program names and args, and hit enter." ++ nl);
     Printf ("The following are built in:" ++ nl)] in
  let listing := map (fun name => Printf ("  " ++ name ++ nl)) builtin_str in
  let closing := Printf "Use the man command for info on other programs." in
  lsh_help args w =
    Ret 1 (mkWorld (stdin w) (allocs w) (chdirs w) (forks w) (execs w) (waits w)
             (errno w) (closing :: rev listing ++ rev heading ++ trace w)%list) /\
  (forall name,
      In (Printf ("  " ++ name ++ nl)) (heading ++ listing ++ [closing])%list <->
      In name builtin_str).
Proof.
  cbv zeta. split; [reflexivity|].
  intros name. rewrite !in_app_iff, in_map_iff. split.
  - intros [H|[(b & Hb & Hin)|H]].
    + destruct H as [H|[H|[H|[]]]]; discriminate H.
    + apply help_line_inj in Hb. subst b. exact Hin.
    + destruct H as [H|[]]. discriminate H.
  - intros Hin. right. left. exists name. auto.
Qed.

(** ** More on the launcher *)

Section MoreLauncher.

Lemma execvp_trace (file : option string) (args : argv) (w : world) :
  match execvp file args w with
  | inl w' => trace w' = Execvp file (strings_of args) None :: trace w
  | inr (r, w') =>
      r = -1 /\ trace w' = Execvp file (strings_of args) (Some (-1)) :: trace w
  end.
Proof.
  unfold execvp, syscall_ret. destruct file as [name|].
  - destruct (next_or (- ENOENT) (execs w)) as [r rest].
    destruct (r <? 0); simpl; auto.
  - simpl. auto.
Qed.

(** The child: [execvp] succeeds and the process is the new program. *)
Lemma lsh_launch_child_replaced (args : argv) (name : string) (w : world)
  (later : list Z) (r : Z) (more : list Z) :
  cell args 0 = Some name ->
  forks w = 0 :: later -> execs w = r :: more -> 0 <= r ->
  exists w',
    lsh_launch args w = Replaced w' /\ stdin w' = stdin w /\
    trace w' = Execvp (Some name) (strings_of args) None :: Fork 0 :: trace w.
Proof.
  intros Hname Hf He Hr. unfold lsh_launch.
  rewrite (fork_gives w 0 later Hf) by lia.
  change (0 =? 0) with true. cbv iota. rewrite Hname.
  unfold execvp. cbn [execs emit set_forks]. rewrite He. cbn [next_or].
  destruct (r <? 0) eqn:E; [apply Z.ltb_lt in E; lia|].
  eexists. repeat split.
Qed.

(** The only exit of the launcher: in the child, after [execvp] failed. *)
Lemma lsh_launch_exit (args : argv) (w : world) (c : Z) (w' : world) :
  lsh_launch args w = Exited c w' ->
  c = EXIT_FAILURE /\
  exists e,
    trace w' = Perror "lsh" e
                 :: Execvp (cell args 0) (strings_of args) (Some (-1))
                 :: Fork 0 :: trace w.
Proof.
  destruct (Z.eq_dec (fst (fork w)) 0) as [Hchild|Hparent].
  - unfold lsh_launch. pose proof (fork_trace w) as Ht.
    destruct (fork w) as [p w1]. simpl in Hchild, Ht. subst p.
    change (0 =? 0) with true. cbv iota.
    pose proof (execvp_trace (cell args 0) args w1) as Hx.
    destruct (execvp (cell args 0) args w1) as [w2|[r w2]]; [discriminate|].
    destruct Hx as [-> Hx]. change (-1 =? -1) with true. cbv iota.
    intros [= <- <-]. split; [reflexivity|].
    exists (errno w2). cbn [perror emit trace]. rewrite Hx, Ht. reflexivity.
  - pose proof (lsh_launch_parent_outcomes args w Hparent) as Hout.
    intros H. rewrite H in Hout. contradiction.
Qed.

End MoreLauncher.

(** X8.  A command line whose first token names no builtin but a program
    that can be loaded: in the child ([fork] gave 0) [execvp] is called
    with the first token as the file and all the tokens, in order and as
    they are, as the arguments; the child reports nothing and becomes that
    program. *)
Theorem X8_child_runs_the_program_with_the_tokens
  (w : world) (name : string) (more : list string)
  (later : list Z) (r : Z) (others : list Z) :
  memory_ok w ->
  spec_tokens (line_of (stdin w)) = name :: more ->
  ~ In name builtin_str ->
  forks w = 0 :: later -> execs w = r :: others -> 0 <= r ->
  exists w',
    loop_body w = Replaced w' /\
    stdin w' = after_line (stdin w) /\
    trace w' = Execvp (Some name) (name :: more) None
                 :: Fork 0 :: Printf "> " :: trace w.
Proof.
  intros Hok Htoks Hname Hf He Hr.
  destruct (loop_body_reads w Hok) as (w2 & Hw2 & Hbody).
  rewrite Htoks in Hbody.
  destruct (allocated_fields _ _ Hw2) as (Hin & _ & Hforks & Hexecs & _ & _ & Htrace).
  assert (Htok : token_ok name = true).
  { pose proof (spec_tokens_ok (line_of (stdin w))) as Hall.
    rewrite Htoks in Hall. inversion Hall; assumption. }
  rewrite (lsh_execute_external _ name) in Hbody;
    [|reflexivity|rewrite (token_is_c_string name Htok); exact Hname].
  destruct (lsh_launch_child_replaced (vector (name :: more)) name w2 later r others)
    as (w' & Hl & Hs & Ht); try assumption; try reflexivity.
  - rewrite Hforks. exact Hf.
  - rewrite Hexecs. exact He.
  - exists w'. rewrite Hbody. split; [exact Hl|]. split.
    + rewrite Hs, Hin. reflexivity.
    + rewrite Ht, Htrace, strings_of_vector. reflexivity.
Qed.

Lemma X8_witness :
  exists w',
    loop_body program_found_child = Replaced w' /\
    stdin w' = EmptyString /\
    trace w' = [Execvp (Some "ls") ["ls"; "-l"; "/tmp"] None; Fork 0; Printf "> "].
Proof.
  assert (Hname : ~ In "ls" builtin_str).
  { intros [H|[H|[H|[]]]]; discriminate H. }
  exact (X8_child_runs_the_program_with_the_tokens
           program_found_child "ls" ["-l"; "/tmp"] [] 0 []
           (fun H : False => H) eq_refl Hname eq_refl eq_refl (Z.le_refl 0)).
Defined.

Section WaitFailures.

Variable pid : Z.

Lemma idle_report (r : wait_result) (s0 : Z) (w : world) :
  stopped r || failed r = true -> terminal s0 = false ->
  exists s1 w1,
    waitpid pid WUNTRACED r (Some s0) w = (if failed r then -1 else pid, Some s1, w1) /\
    terminal s1 = false /\ waits w1 = waits w /\
    trace w1 = Waitpid pid WUNTRACED r :: trace w.
Proof.
  destruct r as [s|e]; simpl; intros Hr Hs0.
  - rewrite orb_false_r in Hr. exists s. eexists. split; [reflexivity|].
    split; [apply stopped_status_not_terminal, Hr|]. split; reflexivity.
  - exists s0. eexists. split; [reflexivity|]. split; [exact Hs0|]. split; reflexivity.
Qed.

(** Once a status that is not terminal is stored, stops and failed calls
    keep the loop turning. *)
Lemma wait_loop_idle (reports : list wait_result) :
  forall s0 w,
    terminal s0 = false ->
    forallb (fun r => stopped r || failed r) reports = true ->
    (exists w', wait_loop reports pid (Some s0) w = Waiting w' /\
                waits w' = [] /\
                trace w' = (wait_events pid reports ++ trace w)%list) /\
    (forall s rest,
        terminal s = true ->
        exists w', wait_loop (reports ++ Waited s :: rest) pid (Some s0) w = Ret tt w' /\
                   waits w' = rest /\
                   trace w' = (Waitpid pid WUNTRACED (Waited s)
                                 :: wait_events pid reports ++ trace w)%list).
Proof.
  induction reports as [|r reports IH]; intros s0 w Hs0 Hall.
  - split.
    + eexists. repeat split.
    + intros s rest Hs. cbn [app wait_loop waitpid].
      rewrite (terminal_ends_loop s Hs). eexists. repeat split.
  - simpl in Hall. apply andb_prop in Hall as [Hr Hall].
    destruct (idle_report r s0 (set_waits reports w) Hr Hs0)
      as (s1 & w1 & Hw & Hs1 & _ & Ht1).
    destruct (IH s1 w1 Hs1 Hall) as [(w' & Hrun & Hwaits & Ht) Hthen].
    split.
    + cbn [wait_loop]. rewrite Hw, (not_terminal_continues s1 Hs1), Hrun.
      exists w'. repeat split; [exact Hwaits|].
      rewrite Ht, Ht1, wait_events_cons. reflexivity.
    + intros s rest Hs.
      destruct (Hthen s rest Hs) as (w2 & Hrun2 & Hwaits2 & Ht2).
      cbn [app wait_loop].
      assert (Hw' : waitpid pid WUNTRACED r (Some s0)
                      (set_waits (reports ++ Waited s :: rest) w) =
                    (if failed r then -1 else pid, Some s1,
                     set_waits (reports ++ Waited s :: rest) w1)).
      { destruct r; simpl in *; injection Hw as <- <-; reflexivity. }
      rewrite Hw', (not_terminal_continues s1 Hs1).
      assert (Hsame : wait_loop (reports ++ Waited s :: rest) pid (Some s1)
                        (set_waits (reports ++ Waited s :: rest) w1) =
                      wait_loop (reports ++ Waited s :: rest) pid (Some s1) w1).
      { generalize (reports ++ Waited s :: rest)%list at 1 3.
        intros l. destruct l as [|x l]; [|reflexivity].
        simpl. destruct w1; reflexivity. }
      rewrite Hsame, Hrun2. exists w2. repeat split; [exact Hwaits2|].
      rewrite Ht2, Ht1, wait_events_cons. reflexivity.
Qed.

End WaitFailures.

(** X9.  The launcher never looks at what [waitpid] returns.  In the
    parent, when the first call fails the loop tests a status no call has
    stored; once a status that is not terminal is stored, calls that fail
    are taken like stops: with such reports only the launcher never
    returns, and a later terminal status still ends the wait with 1. *)
Theorem X9_failed_waitpid_goes_unnoticed
  (args : argv) (w : world) (pid : Z) (later : list Z) :
  forks w = pid :: later -> 0 < pid ->
  (forall e rest,
      waits w = WaitFailed e :: rest ->
      exists w', lsh_launch args w = Undefined w' /\ waits w' = rest /\
                 trace w' = Waitpid pid WUNTRACED (WaitFailed e) :: Fork pid :: trace w) /\
  (forall s reports,
      terminal s = false ->
      forallb (fun r => stopped r || failed r) reports = true ->
      (waits w = Waited s :: reports ->
       exists w', lsh_launch args w = Waiting w' /\
                  trace w' = (wait_events pid (Waited s :: reports)
                                ++ Fork pid :: trace w)%list) /\
      (forall s' rest,
          terminal s' = true ->
          waits w = (Waited s :: reports ++ Waited s' :: rest)%list ->
          exists w', lsh_launch args w = Ret 1 w' /\ waits w' = rest)).
Proof.
  intros Hfork Hpid.
  assert (Hf : fork w = (pid, emit (Fork pid) (set_forks later w)))
    by (apply fork_gives; [exact Hfork|lia]).
  assert (Hl : lsh_launch args w =
               bind (wait_loop (waits w) pid None (emit (Fork pid) (set_forks later w)))
                    (fun _ w => Ret 1 w)).
  { rewrite lsh_launch_parent; rewrite Hf; [reflexivity|exact Hpid]. }
  rewrite Hl. split.
  - intros e rest ->. eexists. repeat split.
  - intros s reports Hs Hall.
    pose proof (not_terminal_continues s Hs) as Hcont.
    split.
    + intros ->. cbn [wait_loop waitpid]. rewrite Hcont.
      destruct (wait_loop_idle pid reports s
                  (emit (Waitpid pid WUNTRACED (Waited s))
                     (set_waits reports (emit (Fork pid) (set_forks later w))))
                  Hs Hall) as [(w' & Hrun & _ & Ht) _].
      rewrite Hrun. exists w'. split; [reflexivity|].
      rewrite Ht, wait_events_cons. reflexivity.
    + intros s' rest Hs' ->. cbn [wait_loop waitpid]. rewrite Hcont.
      destruct (wait_loop_idle pid reports s
                  (emit (Waitpid pid WUNTRACED (Waited s))
                     (set_waits (reports ++ Waited s' :: rest)
                        (emit (Fork pid) (set_forks later w))))
                  Hs Hall) as [_ Hthen].
      destruct (Hthen s' rest Hs') as (w' & Hrun & Hwaits & _).
      rewrite Hrun. exists w'. split; [reflexivity|exact Hwaits].
Qed.

Lemma X9_witness :
  (exists w', lsh_launch [Some "vi"; None] wait_fails_at_once = Undefined w' /\
              waits w' = [Waited 0]) /\
  (exists w', lsh_launch [Some "vi"; None] wait_fails_after_stop = Waiting w').
Proof.
  split.
  - destruct (X9_failed_waitpid_goes_unnoticed [Some "vi"; None] wait_fails_at_once
                77 [] eq_refl eq_refl) as [H _].
    destruct (H 10 [Waited 0] eq_refl) as (w' & Hr & Hw & _).
    exists w'. split; assumption.
  - destruct (X9_failed_waitpid_goes_unnoticed [Some "vi"; None] wait_fails_after_stop
                77 [] eq_refl eq_refl) as [_ H].
    destruct (H (Libc.W_STOPCODE 19) [WaitFailed 10; WaitFailed 10] eq_refl eq_refl)
      as [Hidle _].
    destruct (Hidle eq_refl) as (w' & Hr & _).
    exists w'. exact Hr.
Defined.

(** ** Allocation failures and the ways the process ends *)

Section Exits.

Lemma alloc_trace (w : world) :
  trace (snd (alloc w)) = trace w /\ stdin (snd (alloc w)) = stdin w.
Proof. unfold alloc. destruct (allocs w); auto. Qed.

Lemma read_loop_exit (input : string) :
  forall buffer position bufsize w c w',
    read_loop input buffer position bufsize w = Exited c w' ->
    c = EXIT_FAILURE /\ trace w' = allocation_message :: trace w.
Proof.
  induction input as [|ch rest IH]; intros buffer position bufsize w c w' H.
  - discriminate.
  - cbn [read_loop] in H.
    destruct (Ascii.eqb ch char_nl); [discriminate|].
    destruct (position + 1 >=? bufsize).
    + destruct (alloc_trace (set_stdin rest w)) as [Ht _].
      destruct (alloc (set_stdin rest w)) as [[|] w1]; cbn [negb snd] in *.
      * apply IH in H as [-> H]. rewrite H, Ht. auto.
      * injection H as <- <-. cbn [eprintf emit trace]. rewrite Ht. auto.
    + apply IH in H as [-> H]. auto.
Qed.

Lemma split_loop_exit (token : option string) (save : string) (tokens : argv)
  (position bufsize : Z) (w : world) :
  forall c w',
    split_loop token save tokens position bufsize w = Exited c w' ->
    c = EXIT_FAILURE /\ trace w' = allocation_message :: trace w /\
    stdin w' = stdin w.
Proof.
  funelim (split_loop token save tokens position bufsize w); intros c w' Hx.
  - discriminate.
  - apply H in Hx. exact Hx.
  - pose proof (alloc_trace w) as [Ht Hs]. rewrite Heq in Ht, Hs. simpl in Ht, Hs.
    apply H in Hx as (-> & Hx & Hin). rewrite Hx, Ht, Hin, Hs. auto.
  - pose proof (alloc_trace w) as [Ht Hs]. rewrite Heq in Ht, Hs. simpl in Ht, Hs.
    injection Hx as <- <-. cbn [eprintf emit trace stdin]. rewrite Ht, Hs. auto.
Qed.

Lemma lsh_read_line_exit (w : world) (c : Z) (w' : world) :
  lsh_read_line w = Exited c w' ->
  c = EXIT_FAILURE /\ trace w' = allocation_message :: trace w.
Proof.
  unfold lsh_read_line. destruct (alloc_trace w) as [Ht Hs].
  destruct (alloc w) as [[|] w1]; cbn [negb snd] in *.
  - intros H. apply read_loop_exit in H as [-> H]. rewrite H, Ht. auto.
  - intros [= <- <-]. cbn [eprintf emit trace]. rewrite Ht. auto.
Qed.

Lemma lsh_split_line_exit (line : string) (w : world) (c : Z) (w' : world) :
  lsh_split_line line w = Exited c w' ->
  c = EXIT_FAILURE /\ trace w' = allocation_message :: trace w /\
  stdin w' = stdin w.
Proof.
  unfold lsh_split_line. destruct (alloc_trace w) as [Ht Hs].
  destruct (alloc w) as [[|] w1]; cbn [negb snd] in *.
  - destruct (Libc.strtok (Some line) LSH_TOK_DELIM "") as [token save].
    intros H. apply split_loop_exit in H as (-> & H & Hin).
    rewrite H, Ht, Hin, Hs. auto.
  - intros [= <- <-]. cbn [eprintf emit trace stdin]. rewrite Ht, Hs. auto.
Qed.

End Exits.

(** X10.  [lsh_read_line] and [lsh_split_line] either return or end the
    process, and they end it for one reason only: an allocation failed.
    They then have written [lsh: allocation error] to the error stream as
    their last action and exit with [EXIT_FAILURE]; when the first
    allocation fails nothing is read. *)
Theorem X10_allocation_failure_is_reported_and_fatal :
  (forall w,
      match lsh_read_line w with
      | Ret _ _ => True
      | Exited c w' =>
          c = EXIT_FAILURE /\ In false (allocs w) /\
          trace w' = allocation_message :: trace w
      | _ => False
      end) /\
  (forall line w,
      match lsh_split_line line w with
      | Ret _ _ => True
      | Exited c w' =>
          c = EXIT_FAILURE /\ In false (allocs w) /\
          trace w' = allocation_message :: trace w /\ stdin w' = stdin w
      | _ => False
      end) /\
  (forall w rest,
      allocs w = false :: rest ->
      lsh_read_line w = Exited EXIT_FAILURE (emit allocation_message (set_allocs rest w)) /\
      forall line,
        lsh_split_line line w =
        Exited EXIT_FAILURE (emit allocation_message (set_allocs rest w))).
Proof.
  split; [|split].
  - intros w. pose proof (lsh_read_line_spec w) as Hspec.
    pose proof (lsh_read_line_exit w) as Hexit.
    destruct (lsh_read_line w) as [mem w'|c w'| | | |]; simpl in Hspec; auto.
    destruct Hspec as [_ Hin]. destruct (Hexit c w' eq_refl) as [-> Ht]. auto.
  - intros line w. pose proof (lsh_split_line_spec line w) as Hspec.
    pose proof (lsh_split_line_exit line w) as Hexit.
    destruct (lsh_split_line line w) as [mem w'|c w'| | | |]; simpl in Hspec; auto.
    destruct Hspec as [_ Hin]. destruct (Hexit c w' eq_refl) as (-> & Ht & Hs). auto.
  - intros w rest Ha. unfold lsh_read_line, lsh_split_line, alloc. rewrite Ha.
    split; reflexivity.
Qed.

Section ProgramExits.

Lemma lsh_execute_exit_trace (args : argv) (w : world) (c : Z) (w' : world) :
  lsh_execute args w = Exited c w' ->
  c = EXIT_FAILURE /\
  exists e,
    trace w' = Perror "lsh" e
                 :: Execvp (cell args 0) (strings_of args) (Some (-1))
                 :: Fork 0 :: trace w.
Proof.
  rewrite lsh_execute_dispatch.
  destruct (cell args 0) as [name|] eqn:Hname; [|discriminate].
  destruct (String.eqb (Libc.c_str name) "cd").
  { destruct (lsh_cd_returns args w) as [w1 ->]. discriminate. }
  destruct (String.eqb (Libc.c_str name) "help"); [discriminate|].
  destruct (String.eqb (Libc.c_str name) "exit"); [discriminate|].
  intros H. apply lsh_launch_exit in H. rewrite Hname in H. exact H.
Qed.

Lemma loop_body_exit (w : world) (c : Z) (w' : world) :
  loop_body w = Exited c w' -> c = EXIT_FAILURE /\ last_actions (trace w').
Proof.
  unfold loop_body.
  pose proof (lsh_read_line_exit (printf "> " w)) as Hread.
  destruct (lsh_read_line (printf "> " w)) as [line w1|c1 w1| | | |];
    try discriminate; cbn [bind].
  2:{ intros [= <- <-]. destruct (Hread c1 w1 eq_refl) as [-> Ht].
      split; [reflexivity|]. left. eauto. }
  pose proof (lsh_split_line_exit line w1) as Hsplit.
  destruct (lsh_split_line line w1) as [args w2|c2 w2| | | |];
    try discriminate; cbn [bind].
  2:{ intros [= <- <-]. destruct (Hsplit c2 w2 eq_refl) as (-> & Ht & _).
      split; [reflexivity|]. left. eauto. }
  intros H. apply lsh_execute_exit_trace in H as [-> [e Ht]].
  split; [reflexivity|]. right. eauto 6.
Qed.

Lemma lsh_loop_exit (n : nat) :
  forall w c w',
    lsh_loop n w = Exited c w' -> c = EXIT_FAILURE /\ last_actions (trace w').
Proof.
  induction n as [|n IH]; intros w c w' H; [discriminate|].
  rewrite lsh_loop_step in H.
  pose proof (loop_body_exit w) as Hbody.
  destruct (loop_body w) as [status w1|c1 w1| | | |]; try discriminate;
    cbn [bind] in H.
  - destruct (negb (status =? 0)); [|discriminate]. apply IH in H. exact H.
  - injection H as <- <-. apply Hbody. reflexivity.
Qed.

End ProgramExits.

(** X11.  The interpreter calls [exit] with [EXIT_FAILURE] only, and in two
    situations only: an allocation failed and the error message was just
    written, or the process is the child of a fork in which [execvp] failed
    and [perror] just reported it. *)
Theorem X11_exit_is_always_a_failure (n : nat) (w : world) (c : Z) (w' : world) :
  main n w = Exited c w' -> c = EXIT_FAILURE /\ last_actions (trace w').
Proof.
  unfold main. intros H.
  destruct (lsh_loop n w) as [u w1|c1 w1| | | |] eqn:E; simpl in H;
    try discriminate.
  injection H as <- <-. exact (lsh_loop_exit n w c1 w1 E).
Qed.

Lemma X11_witness :
  1 = EXIT_FAILURE /\ last_actions (trace (final (main 2 no_such_program_child))).
Proof.
  apply (X11_exit_is_always_a_failure 2 no_such_program_child 1
           (final (main 2 no_such_program_child))).
  vm_compute. reflexivity.
Defined.

(** ** One line and one prompt per cycle *)

Section Accounting.











End Accounting.



(** ** From the line typed to the command dispatched *)

Lemma join_no_newline (toks : list string) :
  Forall (fun t => token_ok t = true) toks -> all_chars not_nl (join toks) = true.
Proof.
  assert (Htok : forall t, token_ok t = true -> all_chars not_nl t = true).
  { intros t Ht. apply token_ok_inv in Ht as [_ Hall].
    revert Hall. apply all_chars_weaken. unfold word_char, not_nl.
    intros c H. apply andb_prop in H as [H _].
    destruct (Ascii.eqb c char_nl) eqn:E; [|reflexivity].
    apply Ascii.eqb_eq in E. subst c. discriminate. }
  induction 1 as [|t toks Ht Htoks IH]; [reflexivity|].
  destruct toks as [|t' toks]; [apply Htok, Ht|].
  change (join (t :: t' :: toks)) with (t ++ String char_space (join (t' :: toks))).
  rewrite all_chars_app, (Htok t Ht). simpl. exact IH.
Qed.

(** X13.  Well-formed tokens typed on one line, a single space between two
    of them, then a newline: the cycle prints the prompt, takes that line
    off the input and dispatches the vector of exactly these tokens. *)
Theorem X13_typed_tokens_are_dispatched
  (toks : list string) (rest : string) (w : world) :
  memory_ok w ->
  Forall (fun t => token_ok t = true) toks ->
  stdin w = join toks ++ String char_nl rest ->
  exists w2,
    loop_body w = lsh_execute (vector toks) w2 /\
    stdin w2 = rest /\ trace w2 = Printf "> " :: trace w /\
    chdirs w2 = chdirs w /\ forks w2 = forks w /\ execs w2 = execs w /\
    waits w2 = waits w.
Proof.
  intros Hok Htoks Hin.
  destruct (loop_body_reads w Hok) as (w2 & Hw2 & Hbody).
  destruct (line_before_newline (join toks) rest (join_no_newline toks Htoks))
    as [Hline Hafter].
  rewrite Hin, Hline, (spec_tokens_join toks Htoks) in Hbody.
  rewrite Hin, Hafter in Hw2.
  destruct (allocated_fields _ _ Hw2) as (H1 & H2 & H3 & H4 & H5 & _ & H7).
  exists w2. repeat split; assumption.
Qed.

Lemma X13_witness :
  exists w2,
    loop_body no_such_program_parent = lsh_execute [Some "frobnicate"; Some "-x"; None] w2 /\
    stdin w2 = "exit" ++ nl.
Proof.
  destruct (X13_typed_tokens_are_dispatched ["frobnicate"; "-x"] ("exit" ++ nl)
              no_such_program_parent (fun H : False => H)) as (w2 & Hb & Hs & _).
  - repeat constructor.
  - reflexivity.
  - exists w2. split; assumption.
Defined.

(** ** How many processes a command creates *)

Section Forks.

Lemma forks_made_cons (e : event) (t : list event) :
  forks_made (e :: t) = ((if is_fork e then 1 else 0) + forks_made t)%nat.
Proof. unfold forks_made. simpl. destruct (is_fork e); reflexivity. Qed.

Lemma wait_loop_no_fork (pid : Z) (pending : list wait_result) :
  forall st w,
    forks_made (trace (final (wait_loop pending pid st w))) = forks_made (trace w).
Proof.
  induction pending as [|r pending IH]; intros st w; [reflexivity|].
  cbn [wait_loop].
  destruct r as [s|e]; cbn [waitpid].
  - destruct (negb (Libc.WIFEXITED s) && negb (Libc.WIFSIGNALED s)).
    + rewrite IH. reflexivity.
    + reflexivity.
  - destruct st as [s0|]; [|reflexivity].
    destruct (negb (Libc.WIFEXITED s0) && negb (Libc.WIFSIGNALED s0)).
    + rewrite IH. reflexivity.
    + reflexivity.
Qed.

Lemma lsh_launch_forks_once (args : argv) (w : world) :
  forks_made (trace (final (lsh_launch args w))) = S (forks_made (trace w)).
Proof.
  unfold lsh_launch. pose proof (fork_trace w) as Ht.
  destruct (fork w) as [pid w1]. simpl in Ht.
  assert (H1 : forks_made (trace w1) = S (forks_made (trace w)))
    by (rewrite Ht, forks_made_cons; reflexivity).
  destruct (pid =? 0).
  - pose proof (execvp_trace (cell args 0) args w1) as Hx.
    destruct (execvp (cell args 0) args w1) as [w2|[r w2]].
    + cbn [final]. rewrite Hx, forks_made_cons. exact H1.
    + destruct Hx as [-> Hx]. change (-1 =? -1) with true. cbv iota. cbn [final].
      unfold perror. cbn [emit trace]. rewrite forks_made_cons, Hx, forks_made_cons.
      exact H1.
  - destruct (pid <? 0).
    + cbn [final]. unfold perror. cbn [emit trace]. rewrite forks_made_cons. exact H1.
    + pose proof (wait_loop_no_fork pid (waits w1) None w1) as Hw.
      destruct (wait_loop (waits w1) pid None w1); cbn [bind final] in *;
        rewrite Hw; exact H1.
Qed.

End Forks.

(** X14.  A command creates at most one process: [lsh_execute] calls [fork]
    once when the first token is no builtin, and not at all for a builtin
    or for the empty vector. *)
Theorem X14_one_fork_per_external_command (args : argv) (w : world) :
  forks_made (trace (final (lsh_execute args w))) =
  (forks_made (trace w) +
   match cell args 0 with
   | None => 0
   | Some name => if is_builtin name then 0 else 1
   end)%nat.
Proof.
  rewrite lsh_execute_dispatch. unfold is_builtin.
  destruct (cell args 0) as [name|]; [|rewrite Nat.add_0_r; reflexivity].
  cbn [existsb builtin_str].
  destruct (String.eqb (Libc.c_str name) "cd").
  { rewrite Nat.add_0_r.
    unfold lsh_cd. destruct (cell args 1) as [path|]; [|reflexivity].
    pose proof (chdir_trace path w) as Ht.
    destruct (chdir path w) as [r w1]. simpl in Ht.
    destruct (negb (r =? 0)); cbn [final orb].
    - unfold perror. cbn [emit trace]. rewrite forks_made_cons, Ht, forks_made_cons.
      reflexivity.
    - rewrite Ht, forks_made_cons. reflexivity. }
  destruct (String.eqb (Libc.c_str name) "help");
    [rewrite Nat.add_0_r; reflexivity|].
  destruct (String.eqb (Libc.c_str name) "exit");
    [rewrite Nat.add_0_r; reflexivity|].
  rewrite lsh_launch_forks_once. cbn [orb]. lia.
Qed.
